(** * MISP warehouse pipeline: backfill, delta sync and geo enrichment

    A shallow embedding of the three scripts under
    [PostgreSQL extracted database/]:

    - [misp_backfill_v9_final_version.py]     (full backfill),
    - [misp_sync_v9_final_version.py]         (incremental sync),
    - [misp_geo_backfill_v9_final_version.py] (geo enrichment).

    The scripts are straight-line programs over one psycopg2 connection.
    A run is modelled by the list of actions it performs on that connection,
    in program order; the connection keeps the committed state of the
    warehouse apart from the state seen inside the open transaction, and an
    exception (none of the scripts catches one around a database call) ends
    the process, which discards the open transaction.

    JSON documents are modelled as decoded records.  Keys read with
    [a["k"]] and converted by [int] are fields of type [Z]; keys read with
    [a.get("k")] are [option] fields, [None] standing for an absent key or
    a JSON null, which [get] does not tell apart.  The text keys read with
    a default, [a.get("k", "")], and the [Galaxy] list are
    [option (option _)] fields: [None] is an absent key, [Some None] a JSON
    null, which the default does not replace.  The keys [RelatedAttribute],
    [Feed] and [Orgc] are modelled for the documents in which they are
    absent or hold a list or an object.

    Texts are [string]s holding the UTF-8 encoding of the Python [str]. *)

From Stdlib Require Import Ascii String.
From stdpp Require Import gmap strings list fin_maps pretty.

Local Open Scope string_scope.
Local Open Scope list_scope.
Local Open Scope Z_scope.

(** ** Python runtime *)

(** [datetime] values are counted in microseconds since the epoch (UTC), the
    resolution of Python's [datetime]. *)
Definition datetime := Z.

(** The conversions of the Python standard library the scripts call, each
    returning [None] where the Python function raises, and the order in
    which a [set] of ints is iterated. *)
Class PyRuntime := {
  (** [int(s)] on a string *)
  py_int : string → option Z;
  (** [datetime.fromtimestamp(n, tz=timezone.utc)], [n] in seconds *)
  fromtimestamp : Z → option datetime;
  (** [datetime.fromtimestamp(n/1e6, tz=timezone.utc)] *)
  fromtimestamp_micro : Z → option datetime;
  (** [datetime.fromisoformat(s)] *)
  fromisoformat : string → option datetime;
  (** [d.isoformat()] *)
  isoformat : datetime → string;
  (** the members of the set built from the ints of [l], as iterating the
      set yields them: every member once, in an order of the interpreter's
      choosing *)
  set_iter : list Z → list Z;
  set_iter_NoDup : ∀ l, NoDup (set_iter l);
  set_iter_elem : ∀ l x, x ∈ set_iter l ↔ x ∈ l
}.

(** [timedelta(hours=h)] *)
Definition timedelta_hours (h : Z) : Z := h * 3600 * 1000000.

(** [int(d.timestamp())]: whole seconds, truncated towards zero.  Python
    takes the quotient in double precision, which is this one for every
    [d] within 2^34 seconds of the epoch (up to the year 2514). *)
Definition timestamp_int (d : datetime) : Z := Z.quot d 1000000.

(** [s.replace("\n", " ")] *)
Fixpoint replace_newline (s : string) : string :=
  match s with
  | EmptyString => EmptyString
  | String c s' =>
      String (if Ascii.eqb c "010"%char then " "%char else c) (replace_newline s')
  end.

(** [d.get("k")] and [d.get("k", x)] for a key that may hold null: the
    Python value read, [None] for Python's [None]. *)
Definition py_get {A} (field : option (option A)) : option A := field ≫= id.

Definition py_get_default {A} (x : A) (field : option (option A)) : option A :=
  default (Some x) field.

(** A byte that continues a code point: [10xxxxxx]. *)
Definition is_continuation (c : ascii) : bool :=
  match c with
  | Ascii _ _ _ _ _ _ b6 b7 => b7 && negb b6
  end.

(** [s[:n]]: the first [n] code points of [s]. *)
Fixpoint take_code_points (n : nat) (s : string) : string :=
  match s with
  | EmptyString => EmptyString
  | String c s' =>
      if is_continuation c then String c (take_code_points n s')
      else match n with
           | O => EmptyString
           | S n' => String c (take_code_points n' s')
           end
  end.

(** [range(0, stop, step)] for a positive [step]; empty for a negative one
    (the scripts only call it with [stop = len(...)], which is not negative).
    A zero step raises [ValueError] in Python and is handled by the callers
    below. *)
Definition py_range (stop step : Z) : list Z :=
  if bool_decide (0 < step ∧ 0 < stop)
  then (λ i : nat, Z.of_nat i * step) <$> seq 0 (Z.to_nat ((stop - 1) / step + 1))
  else [].

(** [l[lo:hi]] for [0 <= lo <= hi] *)
Definition slice {A} (l : list A) (lo hi : Z) : list A :=
  take (Z.to_nat (hi - lo)) (drop (Z.to_nat lo) l).

(** The slices [l[start:start+size]] for [start in range(0, len(l), size)],
    as both COPY loops and the geo update loop take them. *)
Definition chunks {A} (size : Z) (l : list A) : list (list A) :=
  (λ start, slice l start (start + size)) <$> py_range (Z.of_nat (length l)) size.

(** ** Source documents (MISP JSON) *)

Record RelatedAttribute := {
  rel_id : Z;
  rel_event_id : Z;
  rel_object_relation : option (option string);
  rel_first_seen : option string;
  rel_last_seen : option string;
  rel_comment : option (option string)
}.

Record Attribute := {
  attr_id : Z;
  attr_event_id : Z;
  attr_category : option string;
  attr_type : option string;
  attr_value : option (option string);
  attr_to_ids : option bool;
  attr_uuid : option string;
  attr_timestamp : option string;
  attr_comment : option (option string);
  attr_first_seen : option string;
  attr_last_seen : option string;
  attr_RelatedAttribute : option (list RelatedAttribute)
}.

Record Event := {
  ev_id : Z;
  ev_org_id : option string;
  ev_info : option (option string);
  ev_uuid : option string;
  ev_date : option string;
  ev_attribute_count : option string;
  ev_timestamp : option string;
  ev_threat_level_id : option string;
  ev_publish_timestamp : option string;
  (** [e.get("Feed",{}).get("name")] *)
  ev_Feed_name : option string;
  (** [e.get("Orgc",{}).get("name")] *)
  ev_Orgc_name : option string;
  (** [g.get("name")] for each [g] of [e.get("Galaxy", [])] *)
  ev_Galaxy : option (option (list (option string)))
}.

(** The remote platform.  [None] is a request on which
    [raise_for_status()] raises. *)
Record Misp := {
  (** [POST /attributes/restSearch] with [page], [limit]: the
      [response.Attribute] block of that page *)
  restSearch_page : Z → option (list Attribute);
  (** [POST /attributes/restSearch] with [timestamp] *)
  restSearch_since : Z → option (list Attribute);
  (** [POST /events/view/{eid}] *)
  events_view : Z → option Event
}.

(** ** Warehouse tables *)

Record EvtRow := {
  e_id : Z;
  e_org_id : option string;
  e_info : option string;
  e_uuid : option string;
  e_date : option string;
  e_attribute_count : option string;
  e_last_modified : option datetime;
  e_threat_level_id : option string;
  e_publish_timestamp : option datetime;
  e_feed_name : option string;
  e_orgc_name : option string
}.

Record CorrRow := {
  c_attr_id : Z;
  c_related_attr_id : Z;
  c_related_event_id : Z;
  c_relationship_type : option string;
  c_first_seen : option datetime;
  c_last_seen : option datetime;
  c_comment : option string
}.

(** A row of [attributes_minimal], columns in the order of [ATTR_COLS].
    Apart from the two integer columns a column holds NULL ([None]) or the
    text of the CSV cell it was loaded from. *)
Record AttrRow := {
  a_id : Z;
  a_event_id : Z;
  a_category : option string;
  a_type : option string;
  a_value : option string;
  a_to_ids : option string;
  a_uuid : option string;
  a_created_ts : option string;
  a_comment : option string;
  a_first_seen : option string;
  a_last_seen : option string;
  a_country_name : option string;
  a_country_code : option string;
  a_region_name : option string;
  a_city : option string;
  a_related_event_info : option string;
  a_event_info : option string;
  a_event_galaxy_names : option string
}.

(** Modelled from the spec: the table declarations are not part of the
    repository.  [events_minimal] is unique on [id] and
    [attribute_correlations] on [(attr_id, related_attr_id)] (the conflict
    targets of [EVT_SQL] and [CORR_SQL]); [attributes_minimal] has no
    uniqueness constraint and keeps its rows in load order; [sync_state] is
    keyed by [id] and its [last_run] may be NULL. *)
Record db := {
  events_minimal : gmap Z EvtRow;
  attribute_correlations : gmap (Z * Z) CorrRow;
  attributes_minimal : list AttrRow;
  sync_state : gmap Z (option datetime)
}.

(** One result of [enrich], the parameters of the geo UPDATE. *)
Record GeoUpdate := {
  g_id : Z;
  g_country_name : option string;
  g_country_code : option string;
  g_region_name : option string;
  g_city : option string
}.

(** ** SQL statements *)

Inductive stmt :=
| EVT_SQL (p : EvtRow)
| CORR_SQL (p : CorrRow)
| COPY_attributes (rows : list AttrRow)
| UPDATE_sync_state (now : datetime)
| UPDATE_geo (u : GeoUpdate).

(** [INSERT ... ON CONFLICT (key) DO NOTHING] *)
Definition insert_or_ignore `{Countable K} {V} (k : K) (v : V) (t : gmap K V) : gmap K V :=
  match t !! k with
  | Some _ => t
  | None => <[k := v]> t
  end.

(** [SET country_name = .., country_code = .., region_name = .., city = ..
     WHERE id = ..] on one row *)
Definition set_geo (u : GeoUpdate) (r : AttrRow) : AttrRow :=
  if bool_decide (a_id r = g_id u) then
    {| a_id := a_id r; a_event_id := a_event_id r; a_category := a_category r;
       a_type := a_type r; a_value := a_value r; a_to_ids := a_to_ids r;
       a_uuid := a_uuid r; a_created_ts := a_created_ts r;
       a_comment := a_comment r; a_first_seen := a_first_seen r;
       a_last_seen := a_last_seen r;
       a_country_name := g_country_name u; a_country_code := g_country_code u;
       a_region_name := g_region_name u; a_city := g_city u;
       a_related_event_info := a_related_event_info r;
       a_event_info := a_event_info r;
       a_event_galaxy_names := a_event_galaxy_names r |}
  else r.

Definition exec (s : stmt) (d : db) : db :=
  match s with
  | EVT_SQL p =>
      {| events_minimal := insert_or_ignore (e_id p) p (events_minimal d);
         attribute_correlations := attribute_correlations d;
         attributes_minimal := attributes_minimal d;
         sync_state := sync_state d |}
  | CORR_SQL p =>
      {| events_minimal := events_minimal d;
         attribute_correlations :=
           insert_or_ignore (c_attr_id p, c_related_attr_id p) p (attribute_correlations d);
         attributes_minimal := attributes_minimal d;
         sync_state := sync_state d |}
  | COPY_attributes rows =>
      {| events_minimal := events_minimal d;
         attribute_correlations := attribute_correlations d;
         attributes_minimal := attributes_minimal d ++ rows;
         sync_state := sync_state d |}
  | UPDATE_sync_state now =>
      {| events_minimal := events_minimal d;
         attribute_correlations := attribute_correlations d;
         attributes_minimal := attributes_minimal d;
         sync_state := alter (λ _, Some now) 1 (sync_state d) |}
  | UPDATE_geo u =>
      {| events_minimal := events_minimal d;
         attribute_correlations := attribute_correlations d;
         attributes_minimal := set_geo u <$> attributes_minimal d;
         sync_state := sync_state d |}
  end.

(** ** Connection and runs *)

(** What a script does to its connection: [cur.execute]/[copy_expert],
    [conn.commit()], or an exception that ends the process. *)
Inductive action :=
| Execute (s : stmt)
| Commit
| Raise.

Record conn := {
  committed : db;
  pending : db
}.

Inductive outcome := Done | Raised | OutOfFuel.

(** The effect of one action on the connection: a statement runs in the open
    transaction, a commit makes the transaction's state the committed one
    (an exception changes nothing; [run_actions] stops there). *)
Definition step (a : action) (c : conn) : conn :=
  match a with
  | Execute s => {| committed := committed c; pending := exec s (pending c) |}
  | Commit => {| committed := pending c; pending := pending c |}
  | Raise => c
  end.

Fixpoint run_actions (acts : list action) (c : conn) : outcome * conn :=
  match acts with
  | [] => (Done, c)
  | Raise :: _ => (Raised, c)
  | a :: k => run_actions k (step a c)
  end.

(** A failure that does not come from the data (a dropped connection, a
    rejected statement, the process being killed) strikes in place of the
    action of index [k]. *)
Definition interrupt (fault : option nat) (acts : list action) : list action :=
  match fault with
  | Some k => if bool_decide (k < length acts)%nat then take k acts ++ [Raise] else acts
  | None => acts
  end.

(** A connection just opened on a warehouse in state [d]. *)
Definition connect (d : db) : conn := {| committed := d; pending := d |}.

(** Runs a script on a warehouse in state [d]: the outcome and the state the
    warehouse is left in, which is the committed one. *)
Definition run_script (fault : option nat) (acts : list action) (d : db) : outcome * db :=
  let r := run_actions (interrupt fault acts) (connect d) in
  (r.1, committed r.2).

(** [execute_batch(cur, sql, params, page_size=...)]: the statement once per
    parameter set, in order (psycopg2 sends them [page_size] at a time, which
    does not change what they do). *)
Definition execute_batch {P} (sql : P → stmt) (params : list P) : list action :=
  Execute ∘ sql <$> params.

(** ** The load pipeline (backfill and sync) *)

Section Pipeline.
Context {rt : PyRuntime}.

Definition to_dt (ts : option string) : option datetime :=
  s ← ts; n ← py_int s; fromtimestamp n.

Definition parse_ts (v : option string) : option datetime :=
  match v with
  | None | Some EmptyString => None
  | Some s =>
      match n ← py_int s; fromtimestamp_micro n with
      | Some d => Some d
      | None => fromisoformat s
      end
  end.

(** *** Phase 1 of the backfill: all attributes, page by page *)

Inductive fetch_result :=
| Fetched (attrs : list Attribute)
| FetchError
| FetchOutOfFuel.

(** The [while True] loop; [log] collects the page numbers requested, the
    latest first.  [fuel] bounds the number of requests. *)
Fixpoint fetch_pages (fuel : nat) (misp : Misp) (page : Z)
    (attrs : list Attribute) (log : list Z) : fetch_result * list Z :=
  match fuel with
  | O => (FetchOutOfFuel, log)
  | S fuel' =>
      match restSearch_page misp page with
      | None => (FetchError, page :: log)
      | Some [] => (Fetched attrs, page :: log)
      | Some block => fetch_pages fuel' misp (page + 1) (attrs ++ block) (page :: log)
      end
  end.

Definition fetch_all (fuel : nat) (misp : Misp) : fetch_result :=
  (fetch_pages fuel misp 1 [] []).1.

(** *** Lookup maps and events *)

(** The dict comprehension over [attrs] from [int(a["id"])] to
    [a.get("value","")] (the empty string when the key is absent, [None]
    when it holds null); a later entry replaces an earlier one with the same
    key. *)
Definition id_to_value (attrs : list Attribute) : gmap Z (option string) :=
  fold_left (λ m a, <[attr_id a := py_get_default EmptyString (attr_value a)]> m) attrs ∅.

(** The set comprehension over [attrs], as the list of its members in
    iteration order. *)
Definition evt_ids (attrs : list Attribute) : list Z :=
  set_iter (attr_event_id <$> attrs).

(** [list(ex.map(fetch_ev, evt_ids))]: the events in the iteration order of
    the set, or the exception of a request that failed. *)
Definition fetch_events (misp : Misp) (ids : list Z) : option (list Event) :=
  mapM (events_view misp) ids.

Definition event_map (evs : list Event) : gmap Z Event :=
  fold_left (λ m e, <[ev_id e := e]> m) evs ∅.

Definition evt_param (e : Event) : EvtRow :=
  {| e_id := ev_id e; e_org_id := ev_org_id e; e_info := py_get (ev_info e);
     e_uuid := ev_uuid e; e_date := ev_date e;
     e_attribute_count := ev_attribute_count e;
     e_last_modified := to_dt (ev_timestamp e);
     e_threat_level_id := ev_threat_level_id e;
     e_publish_timestamp := to_dt (ev_publish_timestamp e);
     e_feed_name := ev_Feed_name e; e_orgc_name := ev_Orgc_name e |}.

Definition evt_params (evs : list Event) : list EvtRow := evt_param <$> evs.

(** *** Correlation extraction *)

Definition corr_param (aid : Z) (r : RelatedAttribute) : CorrRow :=
  {| c_attr_id := aid;
     c_related_attr_id := rel_id r;
     c_related_event_id := rel_event_id r;
     c_relationship_type := py_get_default EmptyString (rel_object_relation r);
     c_first_seen := parse_ts (rel_first_seen r);
     c_last_seen := parse_ts (rel_last_seen r);
     c_comment := py_get_default EmptyString (rel_comment r) |}.

(** The two nested [for] loops appending to [corr_params]. *)
Definition corr_params (attrs : list Attribute) : list CorrRow :=
  fold_left
    (λ acc a,
       let aid := attr_id a in
       fold_left (λ acc' r, acc' ++ [corr_param aid r])
                 (default [] (attr_RelatedAttribute a)) acc)
    attrs [].

(** *** CSV staging and COPY *)

(** [COPY ... WITH (FORMAT csv, NULL '\N')]: an unquoted cell equal to the
    null string is NULL, any other cell is its text. *)
Definition copy_cell (s : string) : option string :=
  if bool_decide (s = "\N") then None else Some s.

(** One element of [rel_parts]; [None] when building it raises (the info of
    the related event is null, on which [replace] is not defined).  A value
    that is [None] is formatted as the text [None]. *)
Definition rel_part (emap : gmap Z Event) (values : gmap Z (option string))
    (r : RelatedAttribute) : option string :=
  let rid := rel_id r in
  let rel_evt := rel_event_id r in
  let evt_obj := emap !! rel_evt in
  info ← py_get_default EmptyString (evt_obj ≫= ev_info);
  let desc := take_code_points 50 (replace_newline info) in
  let val := py_get_default EmptyString (values !! rid) in
  Some (pretty rel_evt +:+ ":" +:+ desc +:+ "|" +:+ from_option id "None" val).

(** The row [w.writerow([...])] stages for attribute [a], as COPY reads it
    back; [None] when building the row raises: a value, a comment, an event
    info or a galaxy list that is null, a galaxy without a name, a timestamp
    that is present but not convertible. *)
Definition csv_row (emap : gmap Z Event) (values : gmap Z (option string))
    (a : Attribute) : option AttrRow :=
  let aid := attr_id a in
  let ev := attr_event_id a in
  let fs := parse_ts (attr_first_seen a) in
  let ls := parse_ts (attr_last_seen a) in
  rel_parts ← mapM (rel_part emap values) (default [] (attr_RelatedAttribute a));
  let related_event_info := String.concat ", " rel_parts in
  let evt_obj := emap !! ev in
  info ← py_get_default EmptyString (evt_obj ≫= ev_info);
  let event_info := replace_newline info in
  galaxies ← py_get_default [] (evt_obj ≫= ev_Galaxy);
  names ← mapM id galaxies;
  let event_galaxy_names := String.concat ", " names in
  value ← py_get_default EmptyString (attr_value a);
  created ← match attr_timestamp a with
            | None | Some EmptyString => Some "\N"
            | Some ts => isoformat <$> to_dt (Some ts)
            end;
  comment ← py_get_default EmptyString (attr_comment a);
  Some
    {| a_id := aid; a_event_id := ev;
       a_category := copy_cell (default EmptyString (attr_category a));
       a_type := copy_cell (default EmptyString (attr_type a));
       a_value := copy_cell (replace_newline value);
       a_to_ids := copy_cell (if default false (attr_to_ids a) then "t" else "f");
       a_uuid := copy_cell (default EmptyString (attr_uuid a));
       a_created_ts := copy_cell created;
       a_comment := copy_cell (replace_newline comment);
       a_first_seen := copy_cell (from_option isoformat "\N" fs);
       a_last_seen := copy_cell (from_option isoformat "\N" ls);
       a_country_name := copy_cell "\N"; a_country_code := copy_cell "\N";
       a_region_name := copy_cell "\N"; a_city := copy_cell "\N";
       a_related_event_info := copy_cell related_event_info;
       a_event_info := copy_cell event_info;
       a_event_galaxy_names := copy_cell event_galaxy_names |}.

Definition write_csv (emap : gmap Z Event) (values : gmap Z (option string))
    (rows : list Attribute) : option (list AttrRow) :=
  mapM (csv_row emap values) rows.

(** The body of the COPY loop over the chunks still to load: stage the chunk,
    COPY it, commit. *)
Fixpoint copy_loop (emap : gmap Z Event) (values : gmap Z (option string))
    (cs : list (list Attribute)) : list action :=
  match cs with
  | [] => []
  | chunk :: cs' =>
      match write_csv emap values chunk with
      | Some rows =>
          Execute (COPY_attributes rows) :: Commit :: copy_loop emap values cs'
      | None => [Raise]
      end
  end.

Definition load_attributes (CSV_CHUNK : Z) (emap : gmap Z Event)
    (values : gmap Z (option string)) (attrs : list Attribute) : list action :=
  if bool_decide (CSV_CHUNK = 0) then [Raise]
  else copy_loop emap values (chunks CSV_CHUNK attrs).

(** *** The common tail of both scripts

    Everything from the event upsert to the checkpoint, which the two
    scripts share line for line except for [CSV_CHUNK]. *)
Definition upsert_actions (attrs : list Attribute) (evs : list Event) : list action :=
  execute_batch EVT_SQL (evt_params evs)
  ++ (match corr_params attrs with
      | [] => []
      | ps => execute_batch CORR_SQL ps
      end)
  ++ [Commit].

Definition advance_checkpoint (now : datetime) : list action :=
  [Execute (UPDATE_sync_state now); Commit].

Definition pipeline (CSV_CHUNK : Z) (attrs : list Attribute) (evs : list Event)
    (now : datetime) : list action :=
  upsert_actions attrs evs
  ++ load_attributes CSV_CHUNK (event_map evs) (id_to_value attrs) attrs
  ++ advance_checkpoint now.

(** *** misp_backfill_v9_final_version.py *)

Definition backfill_CSV_CHUNK : Z := 100000.

(** [now] is the clock reading taken for the checkpoint. *)
Definition backfill (fuel : nat) (misp : Misp) (now : datetime)
    (fault : option nat) (d : db) : outcome * db :=
  match fetch_all fuel misp with
  | Fetched attrs =>
      match fetch_events misp (evt_ids attrs) with
      | Some evs => run_script fault (pipeline backfill_CSV_CHUNK attrs evs now) d
      | None => (Raised, d)
      end
  | FetchError => (Raised, d)
  | FetchOutOfFuel => (OutOfFuel, d)
  end.

(** *** misp_sync_v9_final_version.py *)

Definition INTERVAL_H : Z := 4.
Definition sync_CSV_CHUNK : Z := 10000.

(** [r = cur.fetchone()] after the SELECT on [sync_state], then
    [r[0] if r and r[0] else now - timedelta(hours=INTERVAL_H)]. *)
Definition since (now : datetime) (d : db) : datetime :=
  match sync_state d !! 1 with
  | Some (Some last_run) => last_run
  | _ => now - timedelta_hours INTERVAL_H
  end.

Definition since_ts (now : datetime) (d : db) : Z := timestamp_int (since now d).

(** [start] is the clock reading at the start of the run, [now] the one taken
    for the checkpoint. *)
Definition sync (misp : Misp) (start now : datetime)
    (fault : option nat) (d : db) : outcome * db :=
  match restSearch_since misp (since_ts start d) with
  | None => (Raised, d)
  | Some [] => (Done, d)
  | Some attrs =>
      match fetch_events misp (evt_ids attrs) with
      | Some evs => run_script fault (pipeline sync_CSV_CHUNK attrs evs now) d
      | None => (Raised, d)
      end
  end.

End Pipeline.

(** ** Geo enrichment (misp_geo_backfill_v9_final_version.py) *)

(** What the script reads of a [reader.city(ip)] response:
    [country.name], [country.iso_code], [subdivisions.most_specific.name]
    and [city.name]. *)
Record City := {
  city_country_name : option string;
  city_country_iso_code : option string;
  city_subdivision_name : option string;
  city_city_name : option string
}.

(** Name resolution and the GeoLite2 reader, as they answer during one run;
    [None] where the call raises. *)
Class GeoServices := {
  gethostbyname : string → option string;
  reader_city : string → option City
}.

(** A row of the selection: [(id, value, type)]. *)
Definition sel_row : Type := Z * option string * option string.

Definition geo_types : list string := ["ip-src"; "ip-dst"; "ip"; "cidr"; "domain"].

(** [WHERE country_name IS NULL AND type IN (...)] *)
Definition selected (r : AttrRow) : bool :=
  bool_decide (a_country_name r = None)
  && match a_type r with
     | Some t => bool_decide (t ∈ geo_types)
     | None => false
     end.

Definition select_rows (d : db) : list sel_row :=
  (λ r, (a_id r, a_value r, a_type r)) <$> List.filter selected (attributes_minimal d).

Definition BATCH_SIZE : Z := 1000.

Section Geo.
Context {geo : GeoServices}.

(** The second half of [enrich]: the lookup of [ip] in the reader. *)
Definition geo_result (aid : Z) (ip : string) : option GeoUpdate :=
  match reader_city ip with
  | None => None
  | Some city =>
      Some {| g_id := aid;
              g_country_name := city_country_name city;
              g_country_code := city_country_iso_code city;
              g_region_name := city_subdivision_name city;
              g_city := city_city_name city |}
  end.

(** [enrich(r)] on the cache [dns_cache], returning the cache it leaves.  A
    NULL value makes [gethostbyname] and [reader.city] raise, which the
    function catches like any other failure. *)
Definition enrich (dns_cache : gmap string string) (r : sel_row)
    : option GeoUpdate * gmap string string :=
  let '(aid, val, typ) := r in
  if bool_decide (typ = Some "domain") then
    match val with
    | None => (None, dns_cache)
    | Some v =>
        match dns_cache !! v with
        | Some ip => (geo_result aid ip, dns_cache)
        | None =>
            match gethostbyname v with
            | None => (None, dns_cache)
            | Some ip => (geo_result aid ip, <[v := ip]> dns_cache)
            end
        end
    end
  else
    match val with
    | None => (None, dns_cache)
    | Some ip => (geo_result aid ip, dns_cache)
    end.

(** The loop over [as_completed(futures)]: the rows in the order their tasks
    run to completion, each result that is not [None] appended to
    [updates]. *)
Fixpoint collect (order : list sel_row) (dns_cache : gmap string string)
    (updates : list GeoUpdate) : list GeoUpdate :=
  match order with
  | [] => updates
  | r :: rest =>
      let res := enrich dns_cache r in
      collect rest res.2
        (match res.1 with
         | Some u => updates ++ [u]
         | None => updates
         end)
  end.

(** The batch update loop: one [execute_batch] and one commit per slice of
    [BATCH_SIZE] results. *)
Definition geo_actions (updates : list GeoUpdate) : list action :=
  chunk ← chunks BATCH_SIZE updates;
  execute_batch UPDATE_geo chunk ++ [Commit].

(** The script.  [schedule] is the order in which the worker pool completes
    the tasks it was given, any permutation of the selected rows. *)
Definition geo_backfill (schedule : list sel_row → list sel_row)
    (fault : option nat) (d : db) : outcome * db :=
  let rows := select_rows d in
  let updates := collect (schedule rows) ∅ [] in
  run_script fault (geo_actions updates) d.

End Geo.

(** * Vocabulary of the statements and proofs *)

(** The related-attribute entries of an attribute:
    [a.get("RelatedAttribute", [])]. *)
Definition related (a : Attribute) : list RelatedAttribute :=
  default [] (attr_RelatedAttribute a).

(** [blocks] are the pages the platform returns from [page] on, none of them
    empty. *)
Definition pages_from (misp : Misp) (page : Z) (blocks : list (list Attribute)) : Prop :=
  ∀ (i : nat) b, blocks !! i = Some b →
    restSearch_page misp (page + Z.of_nat i) = Some b ∧ b ≠ [].

(** The statements of a script, and their effect one after the other. *)
Definition exec_all (stmts : list stmt) (d : db) : db :=
  fold_left (λ d' s, exec s d') stmts d.

Definition statements (acts : list action) : list stmt :=
  omap (λ a, match a with Execute s => Some s | _ => None end) acts.

(** Statement classes. *)
Definition is_copy (s : stmt) : option (list AttrRow) :=
  match s with COPY_attributes rows => Some rows | _ => None end.

Definition no_geo (s : stmt) : Prop :=
  match s with UPDATE_geo _ => False | _ => True end.

Definition no_checkpoint (s : stmt) : Prop :=
  match s with UPDATE_sync_state _ => False | _ => True end.

(** Whether an action is the UPDATE of [sync_state], or the UPDATE of the
    geography columns. *)
Definition writes_checkpoint (a : action) : bool :=
  match a with Execute (UPDATE_sync_state _) => true | _ => false end.

Definition rewrites_attributes (a : action) : bool :=
  match a with Execute (UPDATE_geo _) => true | _ => false end.

(** The actions before the checkpoint: inserts, COPYs, commits and
    exceptions. *)
Definition loads_only (a : action) : Prop :=
  writes_checkpoint a = false ∧ rewrites_attributes a = false.


(** Both views of the connection show [s] as the [sync_state] table. *)
Definition checkpoint_is (s : gmap Z (option datetime)) (c : conn) : Prop :=
  sync_state (pending c) = s ∧ sync_state (committed c) = s.


(** The rows [d0] holds in [events_minimal] and [attribute_correlations] are
    in the committed tables, whose rows are in the open transaction's. *)
Definition rows_kept (d0 : db) (c : conn) : Prop :=
  (events_minimal d0 ⊆ events_minimal (committed c)
   ∧ events_minimal (committed c) ⊆ events_minimal (pending c))
  ∧ (attribute_correlations d0 ⊆ attribute_correlations (committed c)
     ∧ attribute_correlations (committed c) ⊆ attribute_correlations (pending c)).

(** Both views of the connection show the events and edges of [d1]. *)
Definition tables_are (d1 : db) (c : conn) : Prop :=
  (events_minimal (pending c) = events_minimal d1
   ∧ events_minimal (committed c) = events_minimal d1)
  ∧ (attribute_correlations (pending c) = attribute_correlations d1
     ∧ attribute_correlations (committed c) = attribute_correlations d1).

(** An action that inserts nothing new into a warehouse whose events and
    edges are those of [d1]. *)
Definition absorbed (d1 : db) (a : action) : Prop :=
  match a with
  | Execute (EVT_SQL p) => is_Some (events_minimal d1 !! e_id p)
  | Execute (CORR_SQL p) =>
      is_Some (attribute_correlations d1 !! (c_attr_id p, c_related_attr_id p))
  | _ => True
  end.

(** The actions of a COPY loop all of whose chunks are staged. *)
Definition copy_commit (loads : list (list AttrRow)) : list action :=
  rs ← loads; [Execute (COPY_attributes rs); Commit].

(** The columns of a row the geo UPDATE does not name. *)
Definition other_columns (r : AttrRow) :=
  (a_id r, a_event_id r, a_category r, a_type r, a_value r, a_to_ids r, a_uuid r,
   a_created_ts r, a_comment r, a_first_seen r, a_last_seen r,
   a_related_event_info r, a_event_info r, a_event_galaxy_names r).

(** How a row may differ from what it was, when only updates for [ids] have
    run. *)
Definition geo_frame (ids : list Z) (r r' : AttrRow) : Prop :=
  other_columns r' = other_columns r ∧ (a_id r ∉ ids → r' = r).

(** The same for a warehouse: only [attributes_minimal] differs, row for
    row within [geo_frame]. *)
Definition db_geo_frame (ids : list Z) (d d' : db) : Prop :=
  events_minimal d' = events_minimal d
  ∧ attribute_correlations d' = attribute_correlations d
  ∧ sync_state d' = sync_state d
  ∧ Forall2 (geo_frame ids) (attributes_minimal d) (attributes_minimal d').

(** The actions of the geo script: updates for collected results, commits. *)
Definition geo_action (ids : list Z) (a : action) : Prop :=
  match a with
  | Execute (UPDATE_geo u) => g_id u ∈ ids
  | Commit => True
  | _ => False
  end.

(** One run of one of the three scripts, with everything it depends on. *)
Inductive script_run :=
| Backfill_run (fuel : nat) (misp : Misp) (now : datetime) (fault : option nat)
| Sync_run (misp : Misp) (start now : datetime) (fault : option nat)
| Geo_run (geo : GeoServices) (schedule : list sel_row → list sel_row)
    (fault : option nat).

Section PipelineVocabulary.
Context {rt : PyRuntime}.

(** The statements of a pipeline run whose chunks are all staged. *)
Definition pipeline_statements (attrs : list Attribute) (evs : list Event)
    (loads : list (list AttrRow)) (now : datetime) : list stmt :=
  (EVT_SQL <$> evt_params evs) ++ (CORR_SQL <$> corr_params attrs)
  ++ (COPY_attributes <$> loads) ++ [UPDATE_sync_state now].

(** The warehouse after a run, and after several in a row. *)
Definition after_run (r : script_run) (d : db) : db :=
  match r with
  | Backfill_run fuel misp now fault => (backfill fuel misp now fault d).2
  | Sync_run misp start now fault => (sync misp start now fault d).2
  | Geo_run geo schedule fault => (geo_backfill schedule fault d).2
  end.

Definition after_runs (rs : list script_run) (d : db) : db :=
  fold_left (λ d' r, after_run r d') rs d.

End PipelineVocabulary.

Section GeoVocabulary.
Context {geo : GeoServices}.

(** A cache that holds nothing but answers of the resolver. *)
Definition cache_ok (dns_cache : gmap string string) : Prop :=
  ∀ k ip, dns_cache !! k = Some ip → gethostbyname k = Some ip.

End GeoVocabulary.

(** ** Vocabulary of the further properties *)

(** [execute_batch] of an insert-or-ignore statement on a table keyed by
    [key]: the rows of [ps], in order, each ignored when its key is taken. *)
Definition upsert `{Countable K} {V} (key : V → K) (ps : list V) (t : gmap K V) : gmap K V :=
  fold_left (λ t' p, insert_or_ignore (key p) p t') ps t.

(** The conflict target of [CORR_SQL]. *)
Definition corr_key (p : CorrRow) : Z * Z := (c_attr_id p, c_related_attr_id p).

Definition is_evt (s : stmt) : option EvtRow :=
  match s with EVT_SQL p => Some p | _ => None end.

Definition is_corr (s : stmt) : option CorrRow :=
  match s with CORR_SQL p => Some p | _ => None end.

(** An action that is a statement. *)
Definition is_execute (a : action) : Prop :=
  match a with Execute _ => True | _ => False end.

Section LoadedVocabulary.
Context {rt : PyRuntime}.

(** The warehouse [d] after the events [evs] and the edges of [attrs] were
    upserted, [rows] appended and the checkpoint set to [now]. *)
Definition loaded (attrs : list Attribute) (evs : list Event) (rows : list AttrRow)
    (now : datetime) (d : db) : db :=
  {| events_minimal := upsert e_id (evt_params evs) (events_minimal d);
     attribute_correlations :=
       upsert corr_key (corr_params attrs) (attribute_correlations d);
     attributes_minimal := attributes_minimal d ++ rows;
     sync_state := alter (λ _, Some now) 1 (sync_state d) |}.

End LoadedVocabulary.

(** Whether a text holds a line feed. *)
Fixpoint has_newline (s : string) : bool :=
  match s with
  | EmptyString => false
  | String c s' => Ascii.eqb c "010"%char || has_newline s'
  end.

(** The number of code points of a text: its bytes that start one. *)
Fixpoint code_points (s : string) : nat :=
  match s with
  | EmptyString => O
  | String c s' => if is_continuation c then code_points s' else S (code_points s')
  end.

(** The updates [us], one after the other, on one row. *)
Definition apply_updates (us : list GeoUpdate) (r : AttrRow) : AttrRow :=
  fold_left (λ r' u, set_geo u r') us r.

Section GeoOutcome.
Context {geo : GeoServices}.

(** What the lookup of its own [(id, value, type)] makes of a row: a row of
    the selection takes the four columns of its result, if it has one. *)
Definition enriched (r : AttrRow) : AttrRow :=
  if selected r then
    match (enrich ∅ (a_id r, a_value r, a_type r)).1 with
    | Some u => set_geo u r
    | None => r
    end
  else r.

End GeoOutcome.

(** * A worked example

    Event 10 (info "x") holds attribute 1, a domain, and attribute 2, an
    address; attribute 1 lists attribute 2 as related with relation
    "similar".  Event 11 holds attribute 3.  The platform serves the three
    attributes on two pages and has nothing on the third. *)

Fixpoint digits_value (s : string) (acc : Z) : option Z :=
  match s with
  | EmptyString => Some acc
  | String c s' =>
      let n := Z.of_nat (nat_of_ascii c) - 48 in
      if (0 <=? n) && (n <=? 9) then digits_value s' (acc * 10 + n) else None
  end.

(** A runtime for the example: [int] reads unsigned decimals, timestamps
    are in range, no string is in ISO format, [isoformat] prints the
    count of microseconds, and a set is iterated in insertion order. *)
Definition ex_runtime : PyRuntime :=
  {| py_int := λ s, match s with EmptyString => None | _ => digits_value s 0 end;
     fromtimestamp := λ n, Some (n * 1000000);
     fromtimestamp_micro := λ n, Some n;
     fromisoformat := λ _, None;
     isoformat := λ d, pretty d;
     set_iter := remove_dups;
     set_iter_NoDup := NoDup_remove_dups;
     set_iter_elem := elem_of_remove_dups |}.

Definition ex_related : RelatedAttribute :=
  {| rel_id := 2; rel_event_id := 10; rel_object_relation := Some (Some "similar");
     rel_first_seen := None; rel_last_seen := None; rel_comment := None |}.

Definition ex_attribute (id event : Z) (type value : string)
    (rel : option (list RelatedAttribute)) : Attribute :=
  {| attr_id := id; attr_event_id := event;
     attr_category := Some "Network activity"; attr_type := Some type;
     attr_value := Some (Some value); attr_to_ids := Some true; attr_uuid := None;
     attr_timestamp := Some "1700000000"; attr_comment := None;
     attr_first_seen := None; attr_last_seen := None;
     attr_RelatedAttribute := rel |}.

Definition ex_a1 : Attribute := ex_attribute 1 10 "domain" "old.example" (Some [ex_related]).
Definition ex_a2 : Attribute := ex_attribute 2 10 "ip-dst" "1.2.3.4" None.
Definition ex_a3 : Attribute := ex_attribute 3 11 "domain" "new.example" None.

Definition ex_event (id : Z) (info : string) : Event :=
  {| ev_id := id; ev_org_id := Some "1"; ev_info := Some (Some info); ev_uuid := None;
     ev_date := Some "2024-01-01"; ev_attribute_count := Some "2";
     ev_timestamp := Some "1700000000"; ev_threat_level_id := None;
     ev_publish_timestamp := None; ev_Feed_name := None; ev_Orgc_name := None;
     ev_Galaxy := None |}.

Definition ex_misp : Misp :=
  {| restSearch_page := λ page,
       if bool_decide (page = 1) then Some [ex_a1; ex_a2]
       else if bool_decide (page = 2) then Some [ex_a3]
       else Some [];
     restSearch_since := λ _, Some [ex_a3];
     events_view := λ eid,
       if bool_decide (eid = 10) then Some (ex_event 10 "x")
       else if bool_decide (eid = 11) then Some (ex_event 11 "y")
       else None |}.

(** An empty warehouse whose checkpoint row holds the epoch, and one without
    checkpoint row. *)
Definition ex_db : db :=
  {| events_minimal := ∅; attribute_correlations := ∅; attributes_minimal := [];
     sync_state := {[ 1 := Some 0 ]} |}.

Definition ex_db_no_row : db :=
  {| events_minimal := ∅; attribute_correlations := ∅; attributes_minimal := [];
     sync_state := ∅ |}.

(** The clock reading of the example runs. *)
Definition ex_now : datetime := 1700000500000000.

Definition ex_db_after_backfill : db :=
  (backfill (rt := ex_runtime) 5 ex_misp ex_now None ex_db).2.

(** Geo enrichment: only "new.example" resolves, and the reader knows its
    address. *)
Definition ex_geo : GeoServices :=
  {| gethostbyname := λ v,
       if bool_decide (v = "new.example") then Some "1.2.3.4" else None;
     reader_city := λ ip,
       if bool_decide (ip = "1.2.3.4")
       then Some {| city_country_name := Some "Australia";
                    city_country_iso_code := Some "AU";
                    city_subdivision_name := Some "New South Wales";
                    city_city_name := Some "Sydney" |}
       else None |}.

Definition ex_row (id : Z) (type value : string) : AttrRow :=
  {| a_id := id; a_event_id := 10; a_category := Some "Network activity";
     a_type := Some type; a_value := Some value; a_to_ids := Some "t";
     a_uuid := Some EmptyString; a_created_ts := None; a_comment := Some EmptyString;
     a_first_seen := None; a_last_seen := None;
     a_country_name := None; a_country_code := None; a_region_name := None;
     a_city := None;
     a_related_event_info := Some EmptyString; a_event_info := Some "x";
     a_event_galaxy_names := Some EmptyString |}.

Definition ex_table (rows : list AttrRow) : db :=
  {| events_minimal := ∅; attribute_correlations := ∅; attributes_minimal := rows;
     sync_state := ∅ |}.

(** Two attributes, each loaded once. *)
Definition ex_geo_db : db :=
  ex_table [ex_row 5 "domain" "old.example"; ex_row 6 "domain" "new.example"].

(** Attribute 5 was loaded twice, by two syncs between which its value was
    edited on the platform: two rows with the id 5. *)
Definition ex_geo_db_edited : db :=
  ex_table [ex_row 5 "domain" "old.example"; ex_row 5 "domain" "new.example"].

(** A platform whose third page fails, and one that never runs out of
    attributes. *)
Definition ex_misp_failing : Misp :=
  {| restSearch_page := λ page,
       if bool_decide (page = 1) then Some [ex_a1; ex_a2]
       else if bool_decide (page = 2) then Some [ex_a3]
       else None;
     restSearch_since := restSearch_since ex_misp;
     events_view := events_view ex_misp |}.

Definition ex_misp_endless : Misp :=
  {| restSearch_page := λ _, Some [ex_a2];
     restSearch_since := restSearch_since ex_misp;
     events_view := events_view ex_misp |}.

(** An attribute whose value runs over two lines, related to attribute 2 of
    event 10, and an info for that event of 51 code points, the first of
    them of two bytes. *)
Definition ex_a4 : Attribute :=
  ex_attribute 4 10 "text" (String "a" (String "010" (String "b" EmptyString)))
    (Some [ex_related]).

Definition ex_long_info : string :=
  "é" +:+ "aaaaaaaaaaaaaaaaaaaaaaaaaaaaaaaaaaaaaaaaaaaaaaaaaa".

(** * Lemmas and theorems *)

(** ** Chunking *)

Section Chunking.
Context {A : Type}.
Implicit Types l : list A.

Lemma py_range_nil step : py_range 0 step = [].
Proof. unfold py_range. rewrite bool_decide_eq_false_2; [done | lia]. Qed.

Lemma chunks_nil size : chunks size (@nil A) = [].
Proof. unfold chunks. simpl. by rewrite py_range_nil. Qed.

Lemma slice_shift l (k : nat) (lo hi : Z) :
  0 ≤ lo → slice (drop k l) lo hi = slice l (Z.of_nat k + lo) (Z.of_nat k + hi).
Proof.
  intros Hlo. unfold slice. rewrite drop_drop. f_equal; [f_equal; lia | f_equal; lia].
Qed.

Lemma chunks_cons size l :
  0 < size → l ≠ [] →
  chunks size l = take (Z.to_nat size) l :: chunks size (drop (Z.to_nat size) l).
Proof.
  intros Hsize Hl.
  assert (0 < length l)%nat as Hlen by (destruct l; [done | simpl; lia]).
  unfold chunks at 1. unfold py_range.
  rewrite bool_decide_eq_true_2 by lia.
  set (n := Z.of_nat (length l)).
  replace (Z.to_nat ((n - 1) / size + 1)) with (S (Z.to_nat ((n - 1) / size)))
    by (assert (0 ≤ (n - 1) / size) by (apply Z.div_pos; lia); lia).
  simpl seq. rewrite !fmap_cons. f_equal.
  - unfold slice. simpl. rewrite drop_0. f_equal. lia.
  - rewrite <- fmap_S_seq, <- !list_fmap_compose.
    unfold chunks, py_range. rewrite length_drop.
    case_bool_decide as Hrest.
    + rewrite <- list_fmap_compose.
      assert (Z.to_nat ((n - 1) / size) =
              Z.to_nat ((Z.of_nat (length l - Z.to_nat size)%nat - 1) / size + 1)) as ->.
      { f_equal. replace (Z.of_nat (length l - Z.to_nat size)%nat) with (n - size) by lia.
        replace (n - 1) with ((n - size - 1) + 1 * size) by lia.
        rewrite Z.div_add by lia. lia. }
      apply list_fmap_ext. intros i x _. simpl.
      rewrite slice_shift by lia. f_equal; lia.
    + assert ((n - 1) / size = 0) as ->; [apply Z.div_small; lia | done].
Qed.

Lemma chunks_ind size (P : list A → list (list A) → Prop) :
  0 < size →
  P [] [] →
  (∀ l, l ≠ [] →
        P (drop (Z.to_nat size) l) (chunks size (drop (Z.to_nat size) l)) →
        P l (take (Z.to_nat size) l :: chunks size (drop (Z.to_nat size) l))) →
  ∀ l, P l (chunks size l).
Proof.
  intros Hsize Hnil Hcons l.
  remember (length l) as n eqn:Hn. revert l Hn.
  induction n as [n IH] using lt_wf_ind. intros l Hn.
  destruct (decide (l = [])) as [-> | Hl].
  - by rewrite chunks_nil.
  - rewrite chunks_cons by done. apply Hcons; [done |].
    apply (IH (length (drop (Z.to_nat size) l))); [| done].
    rewrite length_drop. destruct l; [done | simpl in *; lia].
Qed.

Lemma concat_chunks size l : 0 < size → concat (chunks size l) = l.
Proof.
  intros Hsize. apply (chunks_ind size (λ l cs, concat cs = l)); [done | done |].
  intros l' _ IH. simpl. rewrite IH. apply take_drop.
Qed.

Lemma length_chunks size l :
  0 < size →
  Z.of_nat (length (chunks size l)) = (Z.of_nat (length l) + size - 1) / size.
Proof.
  intros Hsize.
  apply (chunks_ind size
           (λ l cs, Z.of_nat (length cs) = (Z.of_nat (length l) + size - 1) / size));
    [done | | ].
  - simpl. symmetry. apply Z.div_small. lia.
  - intros l' Hl' IH. simpl length. rewrite Nat2Z.inj_succ, IH, length_drop.
    assert (0 < length l')%nat by (destruct l'; [done | simpl; lia]).
    destruct (decide (Z.of_nat (length l') ≤ size)) as [Hle | Hgt].
    + replace (Z.of_nat (length l' - Z.to_nat size)%nat) with 0 by lia.
      rewrite (Z.div_small (0 + size - 1)) by lia.
      change (Z.succ 0) with 1.
      apply (Z.div_unique _ _ 1 (Z.of_nat (length l') - 1)); lia.
    + replace (Z.of_nat (length l' - Z.to_nat size)%nat)
        with (Z.of_nat (length l') - size) by lia.
      replace (Z.of_nat (length l') + size - 1)
        with (Z.of_nat (length l') - size + size - 1 + 1 * size) by lia.
      rewrite Z.div_add by lia. lia.
Qed.

Lemma length_chunk size l (i : nat) c :
  0 < size →
  chunks size l !! i = Some c →
  Z.of_nat (length c) =
    if bool_decide ((Z.of_nat i + 1) * size ≤ Z.of_nat (length l))
    then size else Z.of_nat (length l) `mod` size.
Proof.
  intros Hsize. revert l i c.
  apply (chunks_ind size
           (λ l cs, ∀ (i : nat) c, cs !! i = Some c →
              Z.of_nat (length c) =
                if bool_decide ((Z.of_nat i + 1) * size ≤ Z.of_nat (length l))
                then size else Z.of_nat (length l) `mod` size));
    [done | done |].
  intros l' Hl' IH [| j] c Hc; simpl in Hc.
  - injection Hc as <-. rewrite length_take.
    case_bool_decide.
    + lia.
    + rewrite Z.mod_small by lia. lia.
  - pose proof (IH j c Hc) as ->.
    assert (drop (Z.to_nat size) l' ≠ []) as Hne.
    { intros Heq. rewrite Heq, chunks_nil in Hc. done. }
    assert (Z.to_nat size < length l')%nat as Hlt.
    { destruct (decide (Z.to_nat size < length l')%nat); [done |].
      exfalso. apply Hne, drop_ge. lia. }
    rewrite length_drop.
    replace (Z.of_nat (length l' - Z.to_nat size)%nat)
      with (Z.of_nat (length l') - size) by lia.
    assert ((Z.of_nat (length l') - size) `mod` size
            = Z.of_nat (length l') `mod` size) as ->.
    { replace (Z.of_nat (length l') - size)
        with (Z.of_nat (length l') + (-1) * size) by lia.
      apply Z.mod_add. lia. }
    repeat case_bool_decide; lia.
Qed.

End Chunking.

(** ** Running action lists *)

Lemma run_actions_app a b c :
  run_actions (a ++ b) c =
    match run_actions a c with
    | (Done, c') => run_actions b c'
    | r => r
    end.
Proof.
  revert c. induction a as [| x a IH]; intros c; [done |].
  destruct x; simpl; auto.
Qed.

Lemma run_actions_outcome acts c :
  (run_actions acts c).1 = Done ∨ (run_actions acts c).1 = Raised.
Proof.
  revert c. induction acts as [| x acts IH]; intros c; [by left |].
  destruct x; simpl; auto.
Qed.

Lemma run_actions_snoc_Raise acts c :
  run_actions (acts ++ [Raise]) c = (Raised, (run_actions acts c).2).
Proof.
  rewrite run_actions_app.
  destruct (run_actions acts c) as [o c'] eqn:E.
  pose proof (run_actions_outcome acts c) as Ho. rewrite E in Ho. simpl in *.
  destruct Ho as [-> | ->]; done.
Qed.

Lemma run_actions_no_Raise acts c :
  Raise ∉ acts → (run_actions acts c).1 = Done.
Proof.
  revert c. induction acts as [| x acts IH]; intros c Hno; [done |].
  apply not_elem_of_cons in Hno as [Hx Hno].
  destruct x; simpl; auto. done.
Qed.

(** A property of connections kept by every action of a list is kept by the
    run of the list. *)
Lemma run_actions_invariant (I : conn → Prop) acts c :
  (∀ a c', a ∈ acts → I c' → I (step a c')) →
  I c → I (run_actions acts c).2.
Proof.
  revert c. induction acts as [| x acts IH]; intros c Hstep Hc; [done |].
  assert (I (run_actions acts (step x c)).2) as Hrest.
  { apply IH; [| apply Hstep; [left | done]].
    intros a c' Ha. apply Hstep. by right. }
  destruct x; simpl; auto.
Qed.

(** The connection an interrupted run ends with is the one reached by the
    actions before the fault. *)
Lemma interrupt_Some k acts c :
  (run_actions (interrupt (Some k) acts) c).2 = (run_actions (take k acts) c).2.
Proof.
  unfold interrupt. case_bool_decide.
  - by rewrite run_actions_snoc_Raise.
  - by rewrite take_ge by lia.
Qed.

Lemma interrupt_None acts c :
  (run_actions (interrupt None acts) c).2
  = (run_actions (take (length acts) acts) c).2.
Proof. by rewrite firstn_all. Qed.

(** Whatever the fault, the run executes a prefix of the script. *)
Lemma interrupt_prefix fault acts c :
  ∃ k, (run_actions (interrupt fault acts) c).2 = (run_actions (take k acts) c).2.
Proof.
  destruct fault as [k |].
  - exists k. apply interrupt_Some.
  - exists (length acts). apply interrupt_None.
Qed.

Lemma interrupt_Done fault acts c :
  (run_actions (interrupt fault acts) c).1 = Done →
  interrupt fault acts = acts.
Proof.
  destruct fault as [k |]; [| done]. unfold interrupt.
  case_bool_decide; [| done].
  rewrite run_actions_snoc_Raise. done.
Qed.

(** Cases a script on what its fetches return; the cases that never reach
    the warehouse are closed at once. *)
Ltac script_cases :=
  unfold backfill, sync; repeat case_match; try done.

(** ** What the actions of a script may touch *)

Section PipelineFacts.
Context {rt : PyRuntime}.

Lemma loads_only_copy_loop emap values cs :
  Forall loads_only (copy_loop emap values cs).
Proof.
  induction cs as [| c cs IH]; simpl; [constructor |].
  destruct (write_csv emap values c); repeat constructor; done.
Qed.

Lemma loads_only_load_attributes size emap values attrs :
  Forall loads_only (load_attributes size emap values attrs).
Proof.
  unfold load_attributes. case_bool_decide.
  - repeat constructor.
  - apply loads_only_copy_loop.
Qed.

Lemma loads_only_upsert attrs evs : Forall loads_only (upsert_actions attrs evs).
Proof.
  unfold upsert_actions. rewrite !Forall_app. split_and!.
  - apply Forall_fmap, Forall_true. done.
  - destruct (corr_params attrs) as [| p ps]; [constructor |].
    apply Forall_fmap, Forall_true. done.
  - repeat constructor.
Qed.

Lemma pipeline_split size attrs evs now :
  ∃ pre, pipeline size attrs evs now = pre ++ advance_checkpoint now
         ∧ Forall loads_only pre.
Proof.
  exists (upsert_actions attrs evs
          ++ load_attributes size (event_map evs) (id_to_value attrs) attrs).
  split.
  - unfold pipeline. by rewrite <- app_assoc.
  - apply Forall_app. auto using loads_only_upsert, loads_only_load_attributes.
Qed.


End PipelineFacts.

(** ** The checkpoint along a run *)

Lemma step_checkpoint_is s a c :
  writes_checkpoint a = false → checkpoint_is s c → checkpoint_is s (step a c).
Proof.
  intros Ha [Hp Hc]. destruct a as [[] | |]; simpl in *; try done.
Qed.

Lemma run_checkpoint_is s acts c :
  Forall loads_only acts → checkpoint_is s c →
  checkpoint_is s (run_actions acts c).2.
Proof.
  intros Hacts. apply run_actions_invariant.
  intros a c' Ha. apply step_checkpoint_is.
  rewrite Forall_forall in Hacts. by apply Hacts.
Qed.

(** ** The attribute table along a run *)




Lemma run_script_checkpoint pre now fault d :
  Forall loads_only pre →
  let r := run_script fault (pre ++ advance_checkpoint now) d in
  (r.1 ≠ Done → sync_state r.2 = sync_state d)
  ∧ (r.1 = Done →
       sync_state r.2 = alter (λ _, Some now) 1 (sync_state d)
       ∧ r = run_script None (pre ++ advance_checkpoint now) d).
Proof.
  intros Hpre. unfold run_script. simpl. split.
  - intros Hfail.
    assert (∀ l, Forall loads_only l →
                 sync_state (committed (run_actions l (connect d)).2) = sync_state d) as Hsafe.
    { intros l Hl. by apply (run_checkpoint_is (sync_state d) l (connect d)). }
    assert (∀ l now', Forall loads_only l →
              sync_state (committed
                (run_actions (l ++ [Execute (UPDATE_sync_state now')]) (connect d)).2)
              = sync_state d) as Hsafe'.
    { intros l now' Hl. rewrite run_actions_app.
      pose proof (Hsafe l Hl) as Hc.
      destruct (run_actions l (connect d)) as [[] c1]; done. }
    assert (run_actions (pre ++ advance_checkpoint now) (connect d)
            = (Raised, (run_actions pre (connect d)).2)
            ∨ (run_actions (pre ++ advance_checkpoint now) (connect d)).1 = Done) as Hfull.
    { rewrite run_actions_app.
      pose proof (run_actions_outcome pre (connect d)) as Ho.
      destruct (run_actions pre (connect d)) as [o c1]. simpl in *.
      destruct Ho as [-> | ->]; [by right | by left]. }
    destruct fault as [k |]; simpl in *.
    + unfold interrupt in *. case_bool_decide as Hk.
      * rewrite run_actions_snoc_Raise. simpl.
        rewrite take_app. rewrite length_app in Hk. simpl in Hk.
        destruct (k - length pre)%nat as [| [| j]] eqn:Hj; simpl.
        -- rewrite app_nil_r. by apply Hsafe, Forall_take.
        -- by apply Hsafe', Forall_take.
        -- lia.
      * destruct Hfull as [-> | Hdone]; [by apply Hsafe | done].
    + destruct Hfull as [-> | Hdone]; [by apply Hsafe | done].
  - intros Hdone. apply interrupt_Done in Hdone as Heq. rewrite Heq in *.
    split; [| done].
    rewrite run_actions_app in *.
    pose proof (run_checkpoint_is (sync_state d) pre (connect d) Hpre) as Hc.
    destruct (run_actions pre (connect d)) as [[] c1]; [| done | done].
    simpl in *. destruct Hc as [Hc' _]; [done |]. by rewrite Hc'.
Qed.

(** ** Runs that go through *)

Lemma exec_all_app s1 s2 d : exec_all (s1 ++ s2) d = exec_all s2 (exec_all s1 d).
Proof. apply fold_left_app. Qed.

Lemma statements_app a b : statements (a ++ b) = statements a ++ statements b.
Proof. apply omap_app. Qed.

Lemma statements_execute {P} (sql : P → stmt) ps :
  statements (execute_batch sql ps) = sql <$> ps.
Proof. induction ps as [| p ps IH]; [done |]. simpl. f_equal. exact IH. Qed.

Lemma run_actions_pending acts c :
  Raise ∉ acts →
  (run_actions acts c).1 = Done
  ∧ pending (run_actions acts c).2 = exec_all (statements acts) (pending c).
Proof.
  revert c. induction acts as [| a acts IH]; intros c Hno; [done |].
  apply not_elem_of_cons in Hno as [Ha Hno].
  destruct a as [s | |]; [| | done].
  - exact (IH (step (Execute s) c) Hno).
  - exact (IH (step Commit c) Hno).
Qed.

Lemma run_actions_commit acts c :
  Raise ∉ acts →
  run_actions (acts ++ [Commit]) c
  = (Done, connect (exec_all (statements acts) (pending c))).
Proof.
  intros Hno. rewrite run_actions_app.
  destruct (run_actions_pending acts c Hno) as [Ho Hp].
  destruct (run_actions acts c) as [o c']. simpl in *. subst o.
  by rewrite Hp.
Qed.

(** ** Effect of the statements on each table *)

Lemma omap_is_copy_other {P} (sql : P → stmt) (ps : list P) :
  (∀ p, is_copy (sql p) = None) → omap is_copy (sql <$> ps) = [].
Proof.
  intros Hsql. induction ps as [| p ps IH]; [done |]. simpl. by rewrite Hsql.
Qed.

Lemma attributes_exec_all stmts d :
  Forall no_geo stmts →
  attributes_minimal (exec_all stmts d)
  = attributes_minimal d ++ concat (omap is_copy stmts).
Proof.
  revert d. induction stmts as [| s stmts IH]; intros d Hs; simpl.
  - by rewrite app_nil_r.
  - apply Forall_cons in Hs as [Hs Hrest].
    unfold exec_all in *. simpl. rewrite IH by done.
    destruct s; simpl; try done. by rewrite app_assoc.
Qed.

Lemma sync_state_exec_all stmts d :
  Forall no_checkpoint stmts →
  sync_state (exec_all stmts d) = sync_state d.
Proof.
  revert d. induction stmts as [| s stmts IH]; intros d Hs; simpl; [done |].
  apply Forall_cons in Hs as [Hs Hrest].
  unfold exec_all in *. simpl. rewrite IH by done.
  by destruct s.
Qed.

(** Rows of [events_minimal] and [attribute_correlations] are only ever
    added. *)
Lemma exec_keeps_rows s d :
  events_minimal d ⊆ events_minimal (exec s d)
  ∧ attribute_correlations d ⊆ attribute_correlations (exec s d).
Proof.
  destruct s; simpl; split; try done; unfold insert_or_ignore.
  - destruct (events_minimal d !! e_id p) eqn:E; [done |]. by apply insert_subseteq.
  - destruct (attribute_correlations d !! (c_attr_id p, c_related_attr_id p)) eqn:E;
      [done |]. by apply insert_subseteq.
Qed.

Lemma exec_all_keeps_rows stmts d :
  events_minimal d ⊆ events_minimal (exec_all stmts d)
  ∧ attribute_correlations d ⊆ attribute_correlations (exec_all stmts d).
Proof.
  revert d. induction stmts as [| s stmts IH]; intros d; [done |].
  unfold exec_all in *. simpl.
  destruct (IH (exec s d)) as [He Hc], (exec_keeps_rows s d) as [He' Hc'].
  split; by etrans.
Qed.

Lemma insert_or_ignore_present `{Countable K} {V} (k : K) (v : V) t :
  is_Some (insert_or_ignore k v t !! k).
Proof.
  unfold insert_or_ignore. destruct (t !! k) eqn:E; [by rewrite E |].
  rewrite lookup_insert_eq. eauto.
Qed.

Lemma insert_or_ignore_noop `{Countable K} {V} (k : K) (v : V) t :
  is_Some (t !! k) → insert_or_ignore k v t = t.
Proof. intros [w Hw]. unfold insert_or_ignore. by rewrite Hw. Qed.

Lemma exec_all_event_present stmts d p :
  EVT_SQL p ∈ stmts → is_Some (events_minimal (exec_all stmts d) !! e_id p).
Proof.
  revert d. induction stmts as [| s stmts IH]; intros d Hin; [by apply elem_of_nil in Hin |].
  apply elem_of_cons in Hin as [<- | Hin]; [| by apply IH].
  unfold exec_all. simpl. fold (exec_all stmts).
  destruct (insert_or_ignore_present (e_id p) p (events_minimal d)) as [row Hrow].
  exists row. eapply lookup_weaken; [exact Hrow |].
  apply (exec_all_keeps_rows stmts
           {| events_minimal := insert_or_ignore (e_id p) p (events_minimal d);
              attribute_correlations := attribute_correlations d;
              attributes_minimal := attributes_minimal d;
              sync_state := sync_state d |}).
Qed.

Lemma exec_all_corr_present stmts d p :
  CORR_SQL p ∈ stmts →
  is_Some (attribute_correlations (exec_all stmts d)
             !! (c_attr_id p, c_related_attr_id p)).
Proof.
  revert d. induction stmts as [| s stmts IH]; intros d Hin; [by apply elem_of_nil in Hin |].
  apply elem_of_cons in Hin as [<- | Hin]; [| by apply IH].
  unfold exec_all. simpl. fold (exec_all stmts).
  destruct (insert_or_ignore_present (c_attr_id p, c_related_attr_id p) p
              (attribute_correlations d)) as [row Hrow].
  exists row. eapply lookup_weaken; [exact Hrow |].
  apply (exec_all_keeps_rows stmts
           {| events_minimal := events_minimal d;
              attribute_correlations :=
                insert_or_ignore (c_attr_id p, c_related_attr_id p) p
                  (attribute_correlations d);
              attributes_minimal := attributes_minimal d;
              sync_state := sync_state d |}).
Qed.

(** ** The COPY loop *)

Lemma run_actions_Done_no_Raise acts c :
  (run_actions acts c).1 = Done → Raise ∉ acts.
Proof.
  revert c. induction acts as [| a acts IH]; intros c Hdone.
  - apply not_elem_of_nil.
  - apply not_elem_of_cons. destruct a; simpl in *; [split; [done | eauto] .. | done].
Qed.

Lemma mapM_concat {A B} (f : A → option B) cs loads :
  mapM (mapM f) cs = Some loads → mapM f (concat cs) = Some (concat loads).
Proof.
  rewrite !mapM_Some. induction 1 as [| c rs cs loads Hc _ IH]; simpl; [constructor |].
  apply Forall2_app; [by apply mapM_Some |]. done.
Qed.

Lemma mapM_concat_inv {A B} (f : A → option B) cs rows :
  mapM f (concat cs) = Some rows →
  ∃ loads, mapM (mapM f) cs = Some loads ∧ concat loads = rows.
Proof.
  revert rows. induction cs as [| c cs IH]; intros rows; simpl.
  - intros [= <-]. by exists [].
  - rewrite mapM_Some. intros (rs & rest & Hc & Hrest & ->)%Forall2_app_inv_l.
    apply mapM_Some in Hc, Hrest. destruct (IH _ Hrest) as (loads & Hloads & <-).
    exists (rs :: loads). split; [| done].
    simpl. rewrite Hc. simpl. by rewrite Hloads.
Qed.

Section LoadFacts.
Context {rt : PyRuntime}.

Lemma copy_loop_staged emap values cs loads :
  mapM (write_csv emap values) cs = Some loads →
  copy_loop emap values cs = copy_commit loads.
Proof.
  revert loads. induction cs as [| c cs IH]; intros loads; simpl.
  - by intros [= <-].
  - destruct (write_csv emap values c) as [rs |] eqn:E; [| done]. simpl.
    destruct (mapM (write_csv emap values) cs) as [rest |]; [| done].
    intros [= <-]. unfold copy_commit. rewrite bind_cons. simpl.
    do 2 f_equal. by apply IH.
Qed.

Lemma copy_loop_raises emap values cs :
  mapM (write_csv emap values) cs = None → Raise ∈ copy_loop emap values cs.
Proof.
  induction cs as [| c cs IH]; simpl; [done |].
  destruct (write_csv emap values c) as [rs |] eqn:E; simpl.
  - destruct (mapM (write_csv emap values) cs); [done |].
    intros _. do 2 right. by apply IH.
  - intros _. left.
Qed.

Lemma statements_copy_commit loads :
  statements (copy_commit loads) = COPY_attributes <$> loads.
Proof.
  unfold copy_commit. induction loads as [| rs loads IH]; [done |].
  rewrite bind_cons, statements_app, IH. done.
Qed.

Lemma Raise_not_in_copy_commit loads : Raise ∉ copy_commit loads.
Proof.
  unfold copy_commit. intros (rs & Hin & _)%list_elem_of_bind.
  apply elem_of_cons in Hin as [? | Hin]; [done |].
  apply elem_of_cons in Hin as [? | Hin]; [done |].
  by apply elem_of_nil in Hin.
Qed.

(** A COPY loop without exception staged every chunk, and so every row. *)
Lemma load_attributes_no_Raise size emap values attrs :
  0 < size →
  Raise ∉ load_attributes size emap values attrs →
  ∃ loads,
    mapM (write_csv emap values) (chunks size attrs) = Some loads
    ∧ load_attributes size emap values attrs = copy_commit loads
    ∧ write_csv emap values attrs = Some (concat loads).
Proof.
  intros Hsize Hno. unfold load_attributes in *.
  rewrite bool_decide_eq_false_2 in * by lia.
  destruct (mapM (write_csv emap values) (chunks size attrs)) as [loads |] eqn:E.
  - exists loads. split_and!; [done | by apply copy_loop_staged |].
    unfold write_csv. rewrite <- (concat_chunks size attrs) at 1 by done.
    by apply mapM_concat.
  - by apply copy_loop_raises in E.
Qed.

Lemma load_attributes_staged size emap values attrs rows :
  0 < size →
  write_csv emap values attrs = Some rows →
  ∃ loads,
    mapM (write_csv emap values) (chunks size attrs) = Some loads
    ∧ load_attributes size emap values attrs = copy_commit loads
    ∧ concat loads = rows.
Proof.
  intros Hsize Hrows. unfold write_csv in Hrows.
  rewrite <- (concat_chunks size attrs) in Hrows by done.
  apply mapM_concat_inv in Hrows as (loads & Hloads & <-).
  exists loads. split_and!; [done | | done].
  unfold load_attributes. rewrite bool_decide_eq_false_2 by lia.
  by apply copy_loop_staged.
Qed.

End LoadFacts.

(** ** Complete runs of the pipeline *)

Section PipelineRuns.
Context {rt : PyRuntime}.

Lemma statements_upsert attrs evs :
  statements (upsert_actions attrs evs)
  = (EVT_SQL <$> evt_params evs) ++ (CORR_SQL <$> corr_params attrs).
Proof.
  unfold upsert_actions. rewrite !statements_app, statements_execute.
  assert (statements (match corr_params attrs with
                      | [] => []
                      | p :: ps => execute_batch CORR_SQL (p :: ps)
                      end) = CORR_SQL <$> corr_params attrs) as ->.
  { destruct (corr_params attrs); [done | apply statements_execute]. }
  simpl. by rewrite app_nil_r.
Qed.

(** A run of the pipeline that is [Done] executed all of it. *)
Lemma pipeline_Done size attrs evs now fault d d' :
  0 < size →
  run_script fault (pipeline size attrs evs now) d = (Done, d') →
  ∃ loads,
    mapM (write_csv (event_map evs) (id_to_value attrs)) (chunks size attrs) = Some loads
    ∧ write_csv (event_map evs) (id_to_value attrs) attrs = Some (concat loads)
    ∧ d' = exec_all (pipeline_statements attrs evs loads now) d.
Proof.
  intros Hsize Hrun. unfold run_script in Hrun.
  injection Hrun as Hdone Hd'.
  pose proof (interrupt_Done _ _ _ Hdone) as Heq. rewrite Heq in *.
  pose proof (run_actions_Done_no_Raise _ _ Hdone) as Hno.
  unfold pipeline in Hno.
  rewrite !not_elem_of_app in Hno. destruct Hno as (Hno1 & Hno2 & _).
  destruct (load_attributes_no_Raise _ _ _ _ Hsize Hno2) as (loads & Hloads & Hacts & Hrows).
  exists loads. split_and!; [done | done |].
  subst d'. unfold pipeline, advance_checkpoint.
  change [Execute (UPDATE_sync_state now); Commit]
    with ([Execute (UPDATE_sync_state now)] ++ [Commit]).
  rewrite !app_assoc, run_actions_commit.
  - simpl. rewrite !statements_app, statements_upsert, Hacts, statements_copy_commit.
    unfold pipeline_statements. by rewrite <- !app_assoc.
  - rewrite !not_elem_of_app. split_and!; [done | done |].
    by intros ?%list_elem_of_singleton.
Qed.

Lemma pipeline_statements_tables attrs evs loads now d :
  let d' := exec_all (pipeline_statements attrs evs loads now) d in
  attributes_minimal d' = attributes_minimal d ++ concat loads
  ∧ sync_state d' = alter (λ _, Some now) 1 (sync_state d)
  ∧ (∀ p, p ∈ evt_params evs → is_Some (events_minimal d' !! e_id p))
  ∧ (∀ p, p ∈ corr_params attrs →
          is_Some (attribute_correlations d' !! (c_attr_id p, c_related_attr_id p))).
Proof.
  simpl. split_and!.
  - rewrite attributes_exec_all.
    + f_equal. unfold pipeline_statements. rewrite !omap_app.
      rewrite !omap_is_copy_other by done. simpl. rewrite app_nil_r.
      f_equal. induction loads as [| rs loads IH]; [done |]. simpl. by f_equal.
    + unfold pipeline_statements. rewrite !Forall_app. split_and!;
        try (apply Forall_fmap, Forall_true; done). by repeat constructor.
  - unfold pipeline_statements. rewrite !app_assoc, exec_all_app. simpl.
    rewrite sync_state_exec_all; [done |].
    rewrite !Forall_app. split_and!; apply Forall_fmap, Forall_true; done.
  - intros p Hp. apply exec_all_event_present.
    unfold pipeline_statements. apply elem_of_app. left. by apply list_elem_of_fmap_2.
  - intros p Hp. apply exec_all_corr_present.
    unfold pipeline_statements. apply elem_of_app. right.
    apply elem_of_app. left. by apply list_elem_of_fmap_2.
Qed.

End PipelineRuns.

(** ** The pagination loop *)

Section Fetch.
Context {rt : PyRuntime}.

Lemma pages_from_cons misp page b blocks :
  pages_from misp page (b :: blocks) →
  restSearch_page misp page = Some b ∧ b ≠ [] ∧ pages_from misp (page + 1) blocks.
Proof.
  intros Hp. destruct (Hp 0%nat b eq_refl) as [Hb Hne].
  rewrite Z.add_0_r in Hb. split_and!; [done | done |].
  intros i b' Hi. destruct (Hp (S i) b' Hi) as [Hb' Hne'].
  split; [| done]. rewrite <- Hb'. f_equal. lia.
Qed.

Lemma fetch_pages_blocks misp blocks fuel page attrs log :
  pages_from misp page blocks →
  restSearch_page misp (page + Z.of_nat (length blocks)) = Some [] →
  (length blocks < fuel)%nat →
  fetch_pages fuel misp page attrs log
  = (Fetched (attrs ++ concat blocks),
     reverse (seqZ page (Z.of_nat (length blocks) + 1)) ++ log).
Proof.
  revert fuel page attrs log.
  induction blocks as [| b blocks IH]; intros fuel page attrs log Hpages Hlast Hfuel.
  - destruct fuel as [| fuel]; [simpl in Hfuel; lia |].
    simpl in *. rewrite Z.add_0_r in Hlast. rewrite Hlast.
    by rewrite app_nil_r.
  - destruct fuel as [| fuel]; [simpl in Hfuel; lia |].
    apply pages_from_cons in Hpages as (Hb & Hne & Hrest).
    simpl fetch_pages. rewrite Hb.
    destruct b as [| a b]; [done |].
    rewrite IH; [| done | | simpl in Hfuel; lia].
    + f_equal; [by rewrite <- app_assoc |].
      rewrite (seqZ_cons page) by lia.
      rewrite reverse_cons, <- app_assoc. simpl.
      do 2 f_equal. simpl length. f_equal; lia.
    + rewrite <- Hlast. f_equal. simpl length. lia.
Qed.

(** If some page is empty and every page before it is returned, there is a
    first empty page. *)
Lemma first_empty_page misp (k : nat) page :
  restSearch_page misp (page + Z.of_nat k) = Some [] →
  (∀ i : nat, (i < k)%nat → is_Some (restSearch_page misp (page + Z.of_nat i))) →
  ∃ blocks,
    (length blocks ≤ k)%nat
    ∧ pages_from misp page blocks
    ∧ restSearch_page misp (page + Z.of_nat (length blocks)) = Some [].
Proof.
  revert page. induction k as [| k IH]; intros page Hempty Hbefore.
  - exists []. split_and!; [done | | done]. intros i b Hi. done.
  - destruct (Hbefore 0%nat) as [b Hb]; [lia |]. rewrite Z.add_0_r in Hb.
    destruct b as [| a b].
    + exists []. split_and!; [simpl; lia | | simpl; by rewrite Z.add_0_r].
      intros i b Hi. done.
    + destruct (IH (page + 1)) as (blocks & Hlen & Hpages & Hlast).
      * rewrite <- Hempty. f_equal. lia.
      * intros i Hi. replace (page + 1 + Z.of_nat i) with (page + Z.of_nat (S i)) by lia.
        apply Hbefore. lia.
      * exists ((a :: b) :: blocks). split_and!.
        -- simpl. lia.
        -- intros [| i] b' Hi; simpl in Hi.
           ++ injection Hi as <-. by rewrite Z.add_0_r.
           ++ destruct (Hpages i b' Hi) as [Hb' Hne]. split; [| done].
              rewrite <- Hb'. f_equal. lia.
        -- rewrite <- Hlast. f_equal. simpl length. lia.
Qed.

(** C6: the pagination loop of the backfill.  If the platform returns an
    empty page [n] and returns every page before it, the loop terminates: with
    [m] the first empty page, it has requested exactly the pages [1..m], each
    once and in that order, and its result is the concatenation, in order, of
    the pages [1..m-1], all non-empty. *)
Theorem fetch_stops_at_first_empty_page (misp : Misp) (n : Z) :
  1 ≤ n →
  restSearch_page misp n = Some [] →
  (∀ i, 1 ≤ i < n → is_Some (restSearch_page misp i)) →
  ∃ (m : Z) (blocks : list (list Attribute)),
    1 ≤ m ≤ n
    ∧ Z.of_nat (length blocks) = m - 1
    ∧ restSearch_page misp m = Some []
    ∧ (∀ (i : nat) b, blocks !! i = Some b →
         restSearch_page misp (1 + Z.of_nat i) = Some b ∧ b ≠ [])
    ∧ ∀ fuel, (Z.to_nat m ≤ fuel)%nat →
        fetch_pages fuel misp 1 [] [] = (Fetched (concat blocks), reverse (seqZ 1 m))
        ∧ fetch_all fuel misp = Fetched (concat blocks).
Proof.
  intros Hn Hempty Hbefore.
  destruct (first_empty_page misp (Z.to_nat (n - 1)) 1) as (blocks & Hlen & Hpages & Hlast).
  { rewrite <- Hempty. f_equal. lia. }
  { intros i Hi. apply Hbefore. lia. }
  exists (1 + Z.of_nat (length blocks)), blocks.
  split_and!; [lia | lia | lia | done | exact Hpages |].
  intros fuel Hfuel.
  assert (fetch_pages fuel misp 1 [] []
          = (Fetched (concat blocks), reverse (seqZ 1 (1 + Z.of_nat (length blocks)))))
    as Hrun.
  { rewrite (fetch_pages_blocks misp blocks) by (done || lia).
    rewrite app_nil_r. simpl. do 3 f_equal. lia. }
  split; [done |]. unfold fetch_all. by rewrite Hrun.
Qed.

End Fetch.

(** ** Correlation extraction *)

Section Correlations.
Context {rt : PyRuntime}.

Lemma corr_inner_loop aid rs acc :
  fold_left (λ acc' r, acc' ++ [corr_param aid r]) rs acc
  = acc ++ (corr_param aid <$> rs).
Proof.
  revert acc. induction rs as [| r rs IH]; intros acc; simpl.
  - by rewrite app_nil_r.
  - rewrite IH. by rewrite <- app_assoc.
Qed.

Lemma corr_outer_loop attrs acc :
  fold_left
    (λ acc a,
       let aid := attr_id a in
       fold_left (λ acc' r, acc' ++ [corr_param aid r])
                 (default [] (attr_RelatedAttribute a)) acc)
    attrs acc
  = acc ++ (a ← attrs; corr_param (attr_id a) <$> related a).
Proof.
  revert acc. induction attrs as [| a attrs IH]; intros acc; simpl.
  - by rewrite app_nil_r.
  - rewrite IH, corr_inner_loop. by rewrite <- app_assoc.
Qed.

Lemma corr_params_bind attrs :
  corr_params attrs = a ← attrs; corr_param (attr_id a) <$> related a.
Proof. unfold corr_params. by rewrite corr_outer_loop. Qed.

(** C7: correlation extraction.  The edges are, attribute by attribute and
    entry by entry in source order, one edge per related-attribute entry; an
    edge goes from the carrying attribute to the entry and carries the
    entry's event id, and nothing else is emitted, so a reverse edge is there
    only when the source lists the reverse relation; attributes without
    entries contribute no edge. *)
Theorem corr_params_one_edge_per_entry (attrs : list Attribute) :
  corr_params attrs = (a ← attrs; corr_param (attr_id a) <$> related a)
  ∧ length (corr_params attrs) = sum_list (length ∘ related <$> attrs)
  ∧ (∀ c, c ∈ corr_params attrs ↔
          ∃ a r, a ∈ attrs ∧ r ∈ related a
                 ∧ c = corr_param (attr_id a) r
                 ∧ c_attr_id c = attr_id a
                 ∧ c_related_attr_id c = rel_id r
                 ∧ c_related_event_id c = rel_event_id r)
  ∧ (∀ a, related a = [] → corr_params [a] = [])
  ∧ (∀ before a after, related a = [] →
       corr_params (before ++ a :: after) = corr_params (before ++ after)).
Proof.
  split_and!.
  - apply corr_params_bind.
  - rewrite corr_params_bind.
    induction attrs as [| a attrs IH]; [done |].
    rewrite bind_cons, length_app, length_fmap, IH. done.
  - intros c. rewrite corr_params_bind, list_elem_of_bind. split.
    + intros (a & (r & -> & Hr)%list_elem_of_fmap & Ha).
      exists a, r. split_and!; done.
    + intros (a & r & Ha & Hr & -> & _).
      exists a. split; [| done]. by apply list_elem_of_fmap_2.
  - intros a Ha. rewrite corr_params_bind. simpl. by rewrite Ha.
  - intros before a after Ha. rewrite !corr_params_bind, !bind_app, bind_cons.
    by rewrite Ha.
Qed.

End Correlations.

(** ** The delta window *)

Section DeltaWindow.
Context {rt : PyRuntime}.

(** C2: the delta window.  The lower bound of an incremental run is the
    stored [last_run] when the row [id=1] exists with a non-null [last_run],
    and the clock reading minus four hours when the row is missing or its
    [last_run] is null; the run asks the platform for the attributes changed
    since that bound, in whole seconds, and depends on the platform through
    that request and the event requests only. *)
Theorem delta_window_lower_bound (start : datetime) (d : db) :
  (∀ last_run, sync_state d !! 1 = Some (Some last_run) → since start d = last_run)
  ∧ (sync_state d !! 1 = None ∨ sync_state d !! 1 = Some None →
       since start d = start - 4 * 3600 * 1000000)
  ∧ since_ts start d = Z.quot (since start d) 1000000
  ∧ ∀ misp misp' now fault,
      restSearch_since misp (since_ts start d) = restSearch_since misp' (since_ts start d) →
      (∀ eid, events_view misp eid = events_view misp' eid) →
      sync misp start now fault d = sync misp' start now fault d.
Proof.
  split_and!.
  - intros last_run Hrow. unfold since. by rewrite Hrow.
  - intros [Hrow | Hrow]; unfold since; rewrite Hrow; done.
  - done.
  - intros misp misp' now fault Hdelta Hev. unfold sync. rewrite Hdelta.
    destruct (restSearch_since misp' (since_ts start d)) as [[| a attrs] |]; [done | | done].
    assert (∀ ids, fetch_events misp ids = fetch_events misp' ids) as ->; [| done].
    intros ids. unfold fetch_events.
    induction ids as [| eid l IH]; [done |].
    simpl. by rewrite Hev, IH.
Qed.

End DeltaWindow.

(** ** Chunked loading *)

Lemma run_actions_ends_commit acts c :
  Raise ∉ acts → last acts = Some Commit →
  run_actions acts c = (Done, connect (exec_all (statements acts) (pending c))).
Proof.
  intros Hno [acts' ->]%last_Some.
  apply not_elem_of_app in Hno as [Hno _].
  rewrite run_actions_commit by done.
  by rewrite statements_app, app_nil_r.
Qed.

Lemma run_script_Some k acts d :
  (run_script (Some k) acts d).2
  = committed (run_actions (take k acts) (connect d)).2.
Proof. exact (f_equal committed (interrupt_Some k acts (connect d))). Qed.

Lemma run_script_None acts d :
  run_script None acts d
  = ((run_actions acts (connect d)).1, committed (run_actions acts (connect d)).2).
Proof. done. Qed.

Section Chunked.
Context {rt : PyRuntime}.

Lemma Raise_not_in_upsert attrs evs : Raise ∉ upsert_actions attrs evs.
Proof.
  unfold upsert_actions, execute_batch. rewrite !not_elem_of_app. split_and!.
  - by intros (p & ? & _)%list_elem_of_fmap.
  - destruct (corr_params attrs); [apply not_elem_of_nil |].
    by intros (p & ? & _)%list_elem_of_fmap.
  - by intros ?%list_elem_of_singleton.
Qed.

Lemma last_upsert attrs evs : last (upsert_actions attrs evs) = Some Commit.
Proof. unfold upsert_actions. by rewrite !app_assoc, last_snoc. Qed.

Lemma copy_commit_app l1 l2 : copy_commit (l1 ++ l2) = copy_commit l1 ++ copy_commit l2.
Proof. apply bind_app. Qed.

Lemma length_copy_commit loads : length (copy_commit loads) = (2 * length loads)%nat.
Proof.
  induction loads as [| rs loads IH]; [done |].
  unfold copy_commit in *. rewrite bind_cons. simpl in *. lia.
Qed.

Lemma last_copy_commit loads :
  loads ≠ [] → last (copy_commit loads) = Some Commit.
Proof.
  destruct loads as [| rs loads _] using rev_ind; [done |]. intros _.
  rewrite copy_commit_app. unfold copy_commit at 2. simpl.
  by rewrite last_app.
Qed.

Lemma omap_is_copy_copy (loads : list (list AttrRow)) :
  omap is_copy (COPY_attributes <$> loads) = loads.
Proof. induction loads as [| rs loads IH]; [done |]. simpl. by f_equal. Qed.

(** The process dies right after the commit of chunk [j]: the warehouse holds
    the first [j] chunks. *)
Lemma pipeline_killed_after_chunk size attrs evs now loads (j : nat) d :
  load_attributes size (event_map evs) (id_to_value attrs) attrs = copy_commit loads →
  (j ≤ length loads)%nat →
  attributes_minimal
    (run_script (Some (length (upsert_actions attrs evs) + 2 * j)%nat)
       (pipeline size attrs evs now) d).2
  = attributes_minimal d ++ concat (take j loads).
Proof.
  intros Hload Hj. rewrite run_script_Some.
  unfold pipeline. rewrite Hload.
  rewrite take_app_add, take_app_le by (rewrite length_copy_commit; lia).
  rewrite <- (take_drop j loads) at 1. rewrite copy_commit_app.
  rewrite take_app_length' by (rewrite length_copy_commit, length_take; lia).
  rewrite run_actions_ends_commit.
  - simpl. rewrite attributes_exec_all.
    + f_equal. rewrite statements_app, statements_upsert, statements_copy_commit.
      rewrite !omap_app, omap_is_copy_copy.
      by rewrite !omap_is_copy_other.
    + rewrite statements_app, statements_upsert, statements_copy_commit.
      rewrite !Forall_app. split_and!; apply Forall_fmap, Forall_true; done.
  - apply not_elem_of_app.
    split; [apply Raise_not_in_upsert | apply Raise_not_in_copy_commit].
  - rewrite last_app. destruct (decide (take j loads = [])) as [-> | Hne].
    + simpl. apply last_upsert.
    + by rewrite last_copy_commit.
Qed.

(** C5: the COPY loop.  For a chunk size [C > 0] and [N] attributes that can
    all be staged, the loop is exactly [ceil(N/C)] COPY statements, each
    followed by a commit; the loads are the rows in order; each load has [C]
    rows, except the last one, which has [N mod C] when [C] does not divide
    [N]; a process that dies right after the commit of chunk [j] leaves the
    rows of the first [j] chunks in the table.  With 250,000 attributes and
    chunks of 100,000 there are three loads of 100,000, 100,000 and 50,000
    rows, and dying after the second commit leaves 200,000 new rows. *)
Theorem copy_loop_chunking (C : Z) (attrs : list Attribute) (evs : list Event)
    (now : datetime) (rows : list AttrRow) (d : db) :
  0 < C →
  write_csv (event_map evs) (id_to_value attrs) attrs = Some rows →
  let N := Z.of_nat (length attrs) in
  ∃ loads : list (list AttrRow),
    load_attributes C (event_map evs) (id_to_value attrs) attrs
      = (rs ← loads; [Execute (COPY_attributes rs); Commit])
    ∧ concat loads = rows
    ∧ Z.of_nat (length loads) = (N + C - 1) / C
    ∧ (∀ (i : nat) rs, loads !! i = Some rs →
         Z.of_nat (length rs)
         = if bool_decide ((Z.of_nat i + 1) * C ≤ N) then C else N `mod` C)
    ∧ (∀ j : nat, (j ≤ length loads)%nat →
         attributes_minimal
           (run_script (Some (length (upsert_actions attrs evs) + 2 * j)%nat)
              (pipeline C attrs evs now) d).2
         = attributes_minimal d ++ concat (take j loads))
    ∧ (C = 100000 → N = 250000 →
         (Z.of_nat ∘ length <$> loads) = [100000; 100000; 50000]
         ∧ Z.of_nat (length (attributes_minimal
             (run_script (Some (length (upsert_actions attrs evs) + 4)%nat)
                (pipeline C attrs evs now) d).2))
           = Z.of_nat (length (attributes_minimal d)) + 200000).
Proof.
  intros HC Hrows N.
  destruct (load_attributes_staged C _ _ attrs rows HC Hrows) as (loads & Hloads & Hacts & Hcat).
  assert (Z.of_nat (length loads) = (N + C - 1) / C) as Hcount.
  { rewrite <- (length_mapM _ _ _ Hloads). by apply length_chunks. }
  assert (∀ (i : nat) rs, loads !! i = Some rs →
            Z.of_nat (length rs)
            = if bool_decide ((Z.of_nat i + 1) * C ≤ N) then C else N `mod` C) as Hsizes.
  { intros i rs Hi. apply mapM_Some in Hloads.
    destruct (Forall2_lookup_r _ _ _ _ _ Hloads Hi) as (c & Hc & Hstage).
    rewrite <- (length_mapM _ _ _ Hstage). by apply (length_chunk C attrs i c). }
  assert (∀ j : nat, (j ≤ length loads)%nat →
            attributes_minimal
              (run_script (Some (length (upsert_actions attrs evs) + 2 * j)%nat)
                 (pipeline C attrs evs now) d).2
            = attributes_minimal d ++ concat (take j loads)) as Hkill.
  { intros j Hj. by apply pipeline_killed_after_chunk. }
  exists loads. split_and!; try done.
  intros -> HN. rewrite HN in *.
  change ((250000 + 100000 - 1) `div` 100000) with 3 in Hcount.
  destruct loads as [| r1 [| r2 [| r3 [| r4 loads]]]]; simpl in Hcount; try lia.
  pose proof (Hsizes 0%nat r1 eq_refl) as H1.
  pose proof (Hsizes 1%nat r2 eq_refl) as H2.
  pose proof (Hsizes 2%nat r3 eq_refl) as H3.
  rewrite bool_decide_eq_true_2 in H1 by lia.
  rewrite bool_decide_eq_true_2 in H2 by lia.
  rewrite bool_decide_eq_false_2 in H3 by lia.
  change (250000 `mod` 100000) with 50000 in H3.
  split.
  - simpl. by rewrite H1, H2, H3.
  - pose proof (Hkill 2%nat) as Hk. change (2 * 2)%nat with 4%nat in Hk.
    rewrite Hk by (simpl; lia).
    change (take 2 [r1; r2; r3]) with [r1; r2]. simpl concat.
    rewrite app_nil_r, !length_app. lia.
Qed.

End Chunked.

(** ** The checkpoint is written last *)

Section Checkpoint.
Context {rt : PyRuntime}.

(** Either script, once its fetches succeeded, is a run of the pipeline; a
    script that does not get there leaves the warehouse alone. *)
Lemma script_shape fuel misp start now d (run : option nat → db → outcome * db) :
  run = backfill fuel misp now ∨ run = sync misp start now →
  (∃ size attrs evs,
      0 < size
      ∧ (run = backfill fuel misp now ∧ fetch_all fuel misp = Fetched attrs
         ∨ run = sync misp start now
           ∧ restSearch_since misp (since_ts start d) = Some attrs ∧ attrs ≠ [])
      ∧ fetch_events misp (evt_ids attrs) = Some evs
      ∧ ∀ fault, run fault d = run_script fault (pipeline size attrs evs now) d)
  ∨ (∃ o, (∀ fault, run fault d = (o, d))
          ∧ (o = Done →
             run = sync misp start now
             ∧ restSearch_since misp (since_ts start d) = Some [])).
Proof.
  intros [-> | ->].
  - unfold backfill.
    destruct (fetch_all fuel misp) as [attrs | |] eqn:Hfetch.
    + destruct (fetch_events misp (evt_ids attrs)) as [evs |] eqn:Hevs.
      * left. exists backfill_CSV_CHUNK, attrs, evs.
        split_and!; [done | by left | done | done].
      * right. exists Raised. done.
    + right. exists Raised. done.
    + right. exists OutOfFuel. done.
  - unfold sync.
    destruct (restSearch_since misp (since_ts start d)) as [[| a attrs] |] eqn:Hfetch.
    + right. exists Done. done.
    + destruct (fetch_events misp (evt_ids (a :: attrs))) as [evs |] eqn:Hevs.
      * left. exists sync_CSV_CHUNK, (a :: attrs), evs.
        split_and!; [done | by right | done | done].
      * right. exists Raised. done.
    + right. exists Raised. done.
Qed.

Lemma pipeline_checkpoint size attrs evs now fault d :
  let r := run_script fault (pipeline size attrs evs now) d in
  (r.1 ≠ Done → sync_state r.2 = sync_state d)
  ∧ (r.1 = Done →
       sync_state r.2 = alter (λ _, Some now) 1 (sync_state d)
       ∧ r = run_script None (pipeline size attrs evs now) d).
Proof.
  destruct (pipeline_split size attrs evs now) as (pre & -> & Hpre).
  by apply run_script_checkpoint.
Qed.



End Checkpoint.

(** ** Idempotence and duplicates *)

Lemma not_NoDup_twice {A} (l k : list A) : k ≠ [] → ¬ NoDup (l ++ k ++ k).
Proof.
  intros Hk Hnd. destruct k as [| x k]; [done |].
  apply NoDup_app in Hnd as (_ & _ & Hnd).
  apply NoDup_app in Hnd as (_ & Hdisj & _).
  apply (Hdisj x); left.
Qed.

Section Idempotence.
Context {rt : PyRuntime}.

(** What a staged row was built from. *)
Lemma csv_row_Some emap values a r :
  csv_row emap values a = Some r →
  ∃ rel_parts info galaxies names value created comment,
    mapM (rel_part emap values) (default [] (attr_RelatedAttribute a)) = Some rel_parts
    ∧ py_get_default EmptyString (emap !! attr_event_id a ≫= ev_info) = Some info
    ∧ py_get_default [] (emap !! attr_event_id a ≫= ev_Galaxy) = Some galaxies
    ∧ mapM id galaxies = Some names
    ∧ py_get_default EmptyString (attr_value a) = Some value
    ∧ py_get_default EmptyString (attr_comment a) = Some comment
    ∧ r = {| a_id := attr_id a; a_event_id := attr_event_id a;
             a_category := copy_cell (default EmptyString (attr_category a));
             a_type := copy_cell (default EmptyString (attr_type a));
             a_value := copy_cell (replace_newline value);
             a_to_ids := copy_cell (if default false (attr_to_ids a) then "t" else "f");
             a_uuid := copy_cell (default EmptyString (attr_uuid a));
             a_created_ts := copy_cell created;
             a_comment := copy_cell (replace_newline comment);
             a_first_seen :=
               copy_cell (from_option isoformat "\N" (parse_ts (attr_first_seen a)));
             a_last_seen :=
               copy_cell (from_option isoformat "\N" (parse_ts (attr_last_seen a)));
             a_country_name := None; a_country_code := None;
             a_region_name := None; a_city := None;
             a_related_event_info := copy_cell (String.concat ", " rel_parts);
             a_event_info := copy_cell (replace_newline info);
             a_event_galaxy_names := copy_cell (String.concat ", " names) |}.
Proof.
  unfold csv_row. intros Hrow.
  apply bind_Some in Hrow as (rel_parts & Hparts & Hrow).
  apply bind_Some in Hrow as (info & Hinfo & Hrow).
  apply bind_Some in Hrow as (galaxies & Hgalaxies & Hrow).
  apply bind_Some in Hrow as (names & Hnames & Hrow).
  apply bind_Some in Hrow as (value & Hvalue & Hrow).
  apply bind_Some in Hrow as (created & _ & Hrow).
  apply bind_Some in Hrow as (comment & Hcomment & Hrow).
  injection Hrow as <-.
  exists rel_parts, info, galaxies, names, value, created, comment.
  split_and!; done.
Qed.

Lemma csv_row_id emap values a r : csv_row emap values a = Some r → a_id r = attr_id a.
Proof.
  intros (? & ? & ? & ? & ? & ? & ? & _ & _ & _ & _ & _ & _ & ->)%csv_row_Some. done.
Qed.

Lemma write_csv_ids emap values attrs rows :
  write_csv emap values attrs = Some rows → a_id <$> rows = attr_id <$> attrs.
Proof.
  unfold write_csv. rewrite mapM_Some.
  induction 1 as [| a r attrs rows Hr _ IH]; [done |].
  simpl. f_equal; [by eapply csv_row_id | done].
Qed.

(** A backfill that is [Done] was a complete run of the pipeline on what it
    fetched. *)
Lemma backfill_Done fuel misp now fault d d' :
  backfill fuel misp now fault d = (Done, d') →
  ∃ attrs evs loads,
    fetch_all fuel misp = Fetched attrs
    ∧ fetch_events misp (evt_ids attrs) = Some evs
    ∧ write_csv (event_map evs) (id_to_value attrs) attrs = Some (concat loads)
    ∧ d' = exec_all (pipeline_statements attrs evs loads now) d.
Proof.
  unfold backfill. intros Hrun.
  destruct (fetch_all fuel misp) as [attrs | |] eqn:Hfetch; [| done | done].
  destruct (fetch_events misp (evt_ids attrs)) as [evs |] eqn:Hevs; [| done].
  destruct (pipeline_Done backfill_CSV_CHUNK attrs evs now fault d d')
    as (loads & _ & Hrows & Hd'); [done | done |].
  by exists attrs, evs, loads.
Qed.

(** C4: the attribute load has no conflict target.  COPY appends its rows
    whatever the table holds; two complete backfills over the same source
    leave the rows of every fetched attribute in [attributes_minimal] twice,
    so that, unless nothing was fetched, the table has duplicate rows and
    duplicate ids. *)
Theorem attribute_load_duplicates (fuel : nat) (misp : Misp) (now1 now2 : datetime)
    (f1 f2 : option nat) (d d1 d2 : db) :
  backfill fuel misp now1 f1 d = (Done, d1) →
  backfill fuel misp now2 f2 d1 = (Done, d2) →
  (∀ rows0 d0,
     attributes_minimal (exec (COPY_attributes rows0) d0) = attributes_minimal d0 ++ rows0)
  ∧ ∃ attrs rows,
      fetch_all fuel misp = Fetched attrs
      ∧ a_id <$> rows = attr_id <$> attrs
      ∧ attributes_minimal d1 = attributes_minimal d ++ rows
      ∧ attributes_minimal d2 = attributes_minimal d ++ rows ++ rows
      ∧ (attrs ≠ [] →
           ¬ NoDup (attributes_minimal d2) ∧ ¬ NoDup (a_id <$> attributes_minimal d2)).
Proof.
  intros Hrun1 Hrun2. split; [done |].
  destruct (backfill_Done _ _ _ _ _ _ Hrun1) as (attrs & evs & loads & Hfetch & Hevs & Hrows & ->).
  destruct (backfill_Done _ _ _ _ _ _ Hrun2) as (attrs' & evs' & loads' & Hfetch' & Hevs' & Hrows' & ->).
  rewrite Hfetch in Hfetch'. injection Hfetch' as <-.
  rewrite Hevs in Hevs'. injection Hevs' as <-.
  rewrite Hrows in Hrows'. injection Hrows' as Hsame.
  destruct (pipeline_statements_tables attrs evs loads now1 d) as (Ha1 & _).
  destruct (pipeline_statements_tables attrs evs loads' now2
              (exec_all (pipeline_statements attrs evs loads now1) d)) as (Ha2 & _).
  simpl in Ha1, Ha2.
  exists attrs, (concat loads).
  pose proof (write_csv_ids _ _ _ _ Hrows) as Hids.
  split_and!; [done | done | done | |].
  - by rewrite Ha2, Ha1, <- Hsame, <- app_assoc.
  - intros Hne.
    assert (concat loads ≠ []) as Hrne.
    { intros Heq. rewrite Heq in Hids. destruct attrs; done. }
    rewrite Ha2, Ha1, <- Hsame, <- app_assoc. split.
    + by apply not_NoDup_twice.
    + rewrite !fmap_app. apply not_NoDup_twice.
      intros Heq. by apply fmap_nil_inv in Heq.
Qed.

(** ** Events and correlation edges are only ever added *)

Lemma step_rows_kept d0 a c : rows_kept d0 c → rows_kept d0 (step a c).
Proof.
  intros [[He1 He2] [Hc1 Hc2]]. destruct a as [s | |]; simpl; [| | done].
  - destruct (exec_keeps_rows s (pending c)) as [He Hc].
    split; split; try done; by etrans.
  - split; split; try done; by etrans.
Qed.

Lemma run_script_keeps_rows fault acts d :
  events_minimal d ⊆ events_minimal (run_script fault acts d).2
  ∧ attribute_correlations d ⊆ attribute_correlations (run_script fault acts d).2.
Proof.
  unfold run_script. simpl.
  assert (rows_kept d (run_actions (interrupt fault acts) (connect d)).2) as [[? _] [? _]];
    [| done].
  apply run_actions_invariant; [intros a c' _; apply step_rows_kept |].
  split; split; done.
Qed.

(** ** A second run finds every key taken *)

Lemma step_tables_are d1 a c : absorbed d1 a → tables_are d1 c → tables_are d1 (step a c).
Proof.
  intros Ha [[He1 He2] [Hc1 Hc2]]. destruct a as [[] | |]; simpl in *; try done.
  - split; split; try done. rewrite He1. by apply insert_or_ignore_noop.
  - split; split; try done. rewrite Hc1. by apply insert_or_ignore_noop.
Qed.

Lemma pipeline_absorbed size attrs evs loads now1 now2 d :
  Forall (absorbed (exec_all (pipeline_statements attrs evs loads now1) d))
         (pipeline size attrs evs now2).
Proof.
  destruct (pipeline_statements_tables attrs evs loads now1 d) as (_ & _ & Hev & Hco).
  simpl in Hev, Hco.
  unfold pipeline, upsert_actions, execute_batch. rewrite !Forall_app. split_and!.
  - apply Forall_fmap, Forall_forall. intros p Hp. by apply Hev.
  - destruct (corr_params attrs) as [| p ps] eqn:E; [constructor |].
    apply Forall_fmap, Forall_forall. intros q Hq. by apply Hco.
  - repeat constructor.
  - unfold load_attributes. case_bool_decide; [repeat constructor |].
    generalize (chunks size attrs). intros cs.
    induction cs as [| c cs IH]; simpl; [constructor |].
    destruct (write_csv _ _ c); repeat constructor. done.
  - repeat constructor.
Qed.

(** C3: the backfill is idempotent on events and correlation edges.  After a
    complete backfill, a second backfill over the same source data, whenever
    it runs and wherever it may fail, leaves [events_minimal] and
    [attribute_correlations] exactly as the first left them; and no run of
    the backfill or of the sync ever changes or removes a row these tables
    hold. *)
Theorem backfill_twice_same_events_correlations (fuel : nat) (misp : Misp)
    (now1 now2 : datetime) (f1 f2 : option nat) (d d1 : db) :
  backfill fuel misp now1 f1 d = (Done, d1) →
  (events_minimal (backfill fuel misp now2 f2 d1).2 = events_minimal d1
   ∧ attribute_correlations (backfill fuel misp now2 f2 d1).2 = attribute_correlations d1)
  ∧ (∀ fuel' misp' now' f' d0 id row,
       events_minimal d0 !! id = Some row →
       events_minimal (backfill fuel' misp' now' f' d0).2 !! id = Some row)
  ∧ (∀ misp' start' now' f' d0 id row,
       events_minimal d0 !! id = Some row →
       events_minimal (sync misp' start' now' f' d0).2 !! id = Some row)
  ∧ (∀ p t, is_Some (t !! e_id p) → insert_or_ignore (e_id p) p t = t).
Proof.
  intros Hrun1. split; [| split_and!].
  - destruct (backfill_Done _ _ _ _ _ _ Hrun1) as (attrs & evs & loads & Hfetch & Hevs & _ & ->).
    unfold backfill. rewrite Hfetch, Hevs.
    set (d1 := exec_all (pipeline_statements attrs evs loads now1) d).
    unfold run_script. simpl.
    assert (tables_are d1
              (run_actions (interrupt f2 (pipeline backfill_CSV_CHUNK attrs evs now2))
                 (connect d1)).2) as [[_ ?] [_ ?]]; [| done].
    destruct (interrupt_prefix f2 (pipeline backfill_CSV_CHUNK attrs evs now2) (connect d1))
      as [k ->].
    apply run_actions_invariant; [| split; split; done].
    intros a c' Ha. apply step_tables_are.
    pose proof (pipeline_absorbed backfill_CSV_CHUNK attrs evs loads now1 now2 d) as Habs.
    rewrite Forall_forall in Habs. apply Habs.
    apply elem_of_take in Ha as (i & Hi & _). by eapply list_elem_of_lookup_2.
  - intros fuel' misp' now' f' d0 id row Hrow. script_cases.
    eapply lookup_weaken; [exact Hrow | apply run_script_keeps_rows].
  - intros misp' start' now' f' d0 id row Hrow. script_cases.
    eapply lookup_weaken; [exact Hrow | apply run_script_keeps_rows].
  - intros p t. apply insert_or_ignore_noop.
Qed.

End Idempotence.

(** ** Runs of the three scripts, one after the other *)

Lemma exec_update_sync_state_no_row now d :
  sync_state d !! 1 = None → exec (UPDATE_sync_state now) d = d.
Proof.
  intros Hrow. destruct d as [ev co at_ ss]. simpl in *.
  f_equal. by apply alter_id'.
Qed.

Lemma step_checkpoint_absent s a c :
  s !! 1 = None → checkpoint_is s c → checkpoint_is s (step a c).
Proof.
  intros Hrow [Hp Hc]. destruct a as [[] | |]; simpl in *; try done.
  split; [| done]. simpl. rewrite Hp. by apply alter_id'.
Qed.

Lemma run_script_checkpoint_absent fault acts d :
  sync_state d !! 1 = None → sync_state (run_script fault acts d).2 = sync_state d.
Proof.
  intros Hrow. unfold run_script. simpl.
  assert (checkpoint_is (sync_state d)
            (run_actions (interrupt fault acts) (connect d)).2) as [_ ?]; [| done].
  apply run_actions_invariant; [| done].
  intros a c' _. by apply step_checkpoint_absent.
Qed.

Section NoCheckpointRow.
Context {rt : PyRuntime}.

Lemma after_run_checkpoint_absent r d :
  sync_state d !! 1 = None → sync_state (after_run r d) = sync_state d.
Proof.
  intros Hrow. destruct r as [fuel misp now fault | misp start now fault | geo schedule fault];
    simpl.
  - script_cases. by apply run_script_checkpoint_absent.
  - script_cases. by apply run_script_checkpoint_absent.
  - unfold geo_backfill. by apply run_script_checkpoint_absent.
Qed.

(** C9: advancing the checkpoint is an UPDATE with no insert fallback.  On a
    warehouse without a [sync_state] row [id=1], the UPDATE and the whole
    checkpoint step leave the database as it is; no sequence of runs of the
    three scripts, whatever they fetch and wherever they fail, creates the
    row, and every delta run after them starts its window at the clock
    reading minus four hours. *)
Theorem checkpoint_row_never_created (d : db) :
  sync_state d !! 1 = None →
  (∀ now, exec (UPDATE_sync_state now) d = d)
  ∧ (∀ now, run_script None (advance_checkpoint now) d = (Done, d))
  ∧ ∀ (runs : list script_run) (start : datetime),
      sync_state (after_runs runs d) = sync_state d
      ∧ sync_state (after_runs runs d) !! 1 = None
      ∧ since start (after_runs runs d) = start - 4 * 3600 * 1000000.
Proof.
  intros Hrow. split_and!.
  - intros now. by apply exec_update_sync_state_no_row.
  - intros now. unfold run_script. cbn -[exec].
    by rewrite exec_update_sync_state_no_row.
  - intros runs start.
    assert (sync_state (after_runs runs d) = sync_state d) as Hsame.
    { revert d Hrow. induction runs as [| r runs IH]; intros d Hrow; [done |].
      unfold after_runs in *. simpl.
      pose proof (after_run_checkpoint_absent r d Hrow) as Hr.
      rewrite IH by (by rewrite Hr). done. }
    split_and!; [done | by rewrite Hsame |].
    unfold since. by rewrite Hsame, Hrow.
Qed.

End NoCheckpointRow.

(** ** Geo enrichment *)

Lemma set_geo_other_columns u r : other_columns (set_geo u r) = other_columns r.
Proof. unfold set_geo. by case_bool_decide. Qed.

Lemma set_geo_other_id u r : a_id r ≠ g_id u → set_geo u r = r.
Proof. intros Hne. unfold set_geo. by rewrite bool_decide_eq_false_2. Qed.

Lemma db_geo_frame_refl ids d : db_geo_frame ids d d.
Proof.
  split_and!; try done. apply Forall_Forall2_diag, Forall_true. by intros r.
Qed.

Lemma exec_geo_frame ids d d' u :
  g_id u ∈ ids → db_geo_frame ids d d' → db_geo_frame ids d (exec (UPDATE_geo u) d').
Proof.
  intros Hu (He & Hc & Hs & Ha). split_and!; try done. simpl.
  apply Forall2_fmap_r. eapply Forall2_impl; [exact Ha |].
  intros r r' [Hcols Hsame]. split; simpl.
  - by rewrite set_geo_other_columns.
  - intros Hr. rewrite (Hsame Hr). apply set_geo_other_id.
    intros Heq. apply Hr. by rewrite Heq.
Qed.

Lemma step_geo_frame ids d a c :
  geo_action ids a →
  db_geo_frame ids d (pending c) ∧ db_geo_frame ids d (committed c) →
  db_geo_frame ids d (pending (step a c)) ∧ db_geo_frame ids d (committed (step a c)).
Proof.
  intros Ha [Hp Hc]. destruct a as [[] | |]; simpl in *; try done.
  split; [| done]. by apply exec_geo_frame.
Qed.

Lemma elem_of_chunk {A} size (l c : list A) x : c ∈ chunks size l → x ∈ c → x ∈ l.
Proof.
  unfold chunks. intros (start & -> & _)%list_elem_of_fmap. unfold slice.
  intros (i & Hi & _)%elem_of_take. rewrite lookup_drop in Hi.
  by eapply list_elem_of_lookup_2.
Qed.

Lemma geo_actions_shape updates :
  Forall (geo_action (g_id <$> updates)) (geo_actions updates).
Proof.
  apply Forall_forall. intros a. unfold geo_actions.
  intros (chunk & Ha & Hchunk)%list_elem_of_bind.
  apply elem_of_app in Ha as [Ha | Ha].
  - unfold execute_batch in Ha. apply list_elem_of_fmap in Ha as (u & -> & Hu).
    simpl. apply list_elem_of_fmap_2. by eapply elem_of_chunk.
  - apply list_elem_of_singleton in Ha as ->. done.
Qed.

Lemma Raise_not_in_geo_actions updates : Raise ∉ geo_actions updates.
Proof.
  intros Hin. pose proof (geo_actions_shape updates) as Hshape.
  rewrite Forall_forall in Hshape. by apply (Hshape Raise).
Qed.

Lemma run_geo_frame updates fault d :
  db_geo_frame (g_id <$> updates) d (run_script fault (geo_actions updates) d).2.
Proof.
  unfold run_script. simpl.
  destruct (interrupt_prefix fault (geo_actions updates) (connect d)) as [k ->].
  apply (run_actions_invariant
           (λ c, db_geo_frame (g_id <$> updates) d (pending c)
                 ∧ db_geo_frame (g_id <$> updates) d (committed c))).
  - intros a c' Ha. apply step_geo_frame.
    pose proof (geo_actions_shape updates) as Hshape.
    rewrite Forall_forall in Hshape. apply Hshape.
    apply elem_of_take in Ha as (i & Hi & _). by eapply list_elem_of_lookup_2.
  - split; apply db_geo_frame_refl.
Qed.

Section GeoFacts.
Context {geo : GeoServices}.

(** C10: the frame of the geo update.  Whatever order the lookups complete
    in and wherever the pass may fail, it leaves [events_minimal],
    [attribute_correlations] and [sync_state] as they were, and
    [attributes_minimal] row for row: every row keeps all its columns other
    than the four geography columns, and a row whose id is the id of no
    enrichment result is unchanged; one UPDATE already changes nothing but
    the four geography columns of the rows whose id it names. *)
Theorem geo_update_frame (schedule : list sel_row → list sel_row)
    (fault : option nat) (d : db) :
  let updates := collect (schedule (select_rows d)) ∅ [] in
  let d' := (geo_backfill schedule fault d).2 in
  events_minimal d' = events_minimal d
  ∧ attribute_correlations d' = attribute_correlations d
  ∧ sync_state d' = sync_state d
  ∧ Forall2 (λ r r', other_columns r' = other_columns r
                     ∧ (a_id r ∉ g_id <$> updates → r' = r))
      (attributes_minimal d) (attributes_minimal d')
  ∧ ∀ u r, other_columns (set_geo u r) = other_columns r
           ∧ (a_id r ≠ g_id u → set_geo u r = r).
Proof.
  intros updates d'.
  destruct (run_geo_frame updates fault d) as (He & Hc & Hs & Ha).
  split_and!; [done | done | done | exact Ha |].
  intros u r. split; [apply set_geo_other_columns | apply set_geo_other_id].
Qed.

End GeoFacts.

(** ** The enrichment of one row *)

Section Enrich.
Context {geo : GeoServices}.

Lemma cache_ok_empty : cache_ok ∅.
Proof. intros k ip Hk. by rewrite lookup_empty in Hk. Qed.

(** The cache does not change what [enrich] returns. *)
Lemma enrich_cache dns_cache row :
  cache_ok dns_cache →
  (enrich dns_cache row).1 = (enrich ∅ row).1 ∧ cache_ok (enrich dns_cache row).2.
Proof.
  intros Hok. destruct row as [[aid val] typ]. unfold enrich.
  case_bool_decide; [| by destruct val].
  destruct val as [v |]; [| done].
  rewrite lookup_empty.
  destruct (dns_cache !! v) as [ip |] eqn:Hv.
  - rewrite (Hok v ip Hv). done.
  - destruct (gethostbyname v) as [ip |] eqn:Hres; [| done].
    split; [done |]. simpl. intros k ip' Hk.
    destruct (decide (v = k)) as [<- | Hne].
    + rewrite lookup_insert_eq in Hk. by injection Hk as <-.
    + rewrite lookup_insert_ne in Hk by done. by apply Hok.
Qed.

Lemma enrich_id dns_cache row u :
  (enrich dns_cache row).1 = Some u → g_id u = row.1.1.
Proof.
  destruct row as [[aid val] typ]. unfold enrich, geo_result.
  repeat case_match; simpl; intros [= <-]; done.
Qed.

(** A domain that does not resolve is skipped, whatever the cache holds. *)
Lemma enrich_unresolved dns_cache aid v :
  cache_ok dns_cache → gethostbyname v = None →
  enrich dns_cache (aid, Some v, Some "domain"%string) = (None, dns_cache).
Proof.
  intros Hok Hres. unfold enrich. rewrite bool_decide_eq_true_2 by done.
  destruct (dns_cache !! v) as [ip |] eqn:Hv.
  - rewrite (Hok v ip Hv) in Hres. done.
  - by rewrite Hres.
Qed.

(** Every collected result is the result of a row of the schedule. *)
Lemma collect_results order dns_cache updates u :
  cache_ok dns_cache →
  u ∈ collect order dns_cache updates →
  u ∈ updates ∨ ∃ row, row ∈ order ∧ (enrich ∅ row).1 = Some u.
Proof.
  revert dns_cache updates.
  induction order as [| row order IH]; intros dns_cache updates Hok Hu; [by left |].
  simpl in Hu. destruct (enrich_cache dns_cache row Hok) as [Hres Hok'].
  apply IH in Hu as [Hu | (row' & Hrow' & Hu)]; [| | done].
  - destruct (enrich dns_cache row).1 as [u' |] eqn:E; [| by left].
    apply elem_of_app in Hu as [Hu | Hu]; [by left |].
    apply list_elem_of_singleton in Hu as ->.
    right. exists row. split; [left |]. by rewrite <- Hres.
  - right. exists row'. split; [by right | done].
Qed.

Lemma select_rows_elem row d :
  row ∈ select_rows d →
  ∃ r, r ∈ attributes_minimal d ∧ selected r = true
       ∧ row = (a_id r, a_value r, a_type r).
Proof.
  unfold select_rows. intros (r & -> & Hr)%list_elem_of_fmap.
  apply list_elem_of_In, filter_In in Hr as [Hr Hsel].
  exists r. split_and!; [by apply list_elem_of_In | done | done].
Qed.

(** C8, as the code has it.  For a selected domain row whose name does not
    resolve, or whose value is NULL, [enrich] returns no update and leaves
    the cache as it found it, and the pass does not fail.  If moreover no
    selected row with the same id yields an enrichment result (the UPDATE is
    keyed by [id] alone, and [attributes_minimal] may hold several rows with
    one id), no collected update carries the id of the row and the row is
    left exactly as it was, wherever the pass may stop: its geography
    columns are as null as before and it is selected again by the next
    pass. *)
Theorem unresolved_domain_row_skipped (schedule : list sel_row → list sel_row)
    (fault : option nat) (d : db) (i : nat) (r : AttrRow) :
  (∀ l, schedule l ≡ₚ l) →
  attributes_minimal d !! i = Some r →
  selected r = true →
  a_type r = Some "domain"%string →
  (∀ v, a_value r = Some v → gethostbyname v = None) →
  (∀ dns_cache, cache_ok dns_cache →
     enrich dns_cache (a_id r, a_value r, a_type r) = (None, dns_cache))
  ∧ (geo_backfill schedule None d).1 = Done
  ∧ ((∀ r', r' ∈ attributes_minimal d → selected r' = true → a_id r' = a_id r →
            (enrich ∅ (a_id r', a_value r', a_type r')).1 = None) →
     (∀ u, u ∈ collect (schedule (select_rows d)) ∅ [] → g_id u ≠ a_id r)
     ∧ attributes_minimal (geo_backfill schedule fault d).2 !! i = Some r
     ∧ a_country_name r = None
     ∧ (∀ r', attributes_minimal (geo_backfill schedule fault d).2 !! i = Some r' →
              selected r' = true
              ∧ a_country_name r' = None
              ∧ a_country_code r' = a_country_code r
              ∧ a_region_name r' = a_region_name r
              ∧ a_city r' = a_city r)).
Proof.
  intros Hsched Hi Hsel Htype Hres.
  split_and!.
  - intros dns_cache Hok. rewrite Htype.
    destruct (a_value r) as [v |] eqn:Hval.
    + apply enrich_unresolved; [done | by apply Hres].
    + unfold enrich. by rewrite bool_decide_eq_true_2.
  - unfold geo_backfill, run_script. simpl.
    apply run_actions_no_Raise, Raise_not_in_geo_actions.
  - intros Halone.
    assert (∀ u, u ∈ collect (schedule (select_rows d)) ∅ [] → g_id u ≠ a_id r) as Hnone.
    { intros u Hu Hid.
      apply collect_results in Hu as [Hu | (row & Hrow & Hu)]; [| | apply cache_ok_empty].
      { by apply elem_of_nil in Hu. }
      rewrite Hsched in Hrow.
      apply select_rows_elem in Hrow as (r' & Hr' & Hsel' & ->).
      pose proof (enrich_id _ _ _ Hu) as Hid'. simpl in Hid'.
      rewrite (Halone r' Hr' Hsel') in Hu; [done | congruence]. }
    assert (attributes_minimal (geo_backfill schedule fault d).2 !! i = Some r) as Hkept.
    { unfold geo_backfill.
      destruct (run_geo_frame (collect (schedule (select_rows d)) ∅ []) fault d)
        as (_ & _ & _ & Hframe).
      destruct (Forall2_lookup_l _ _ _ _ _ Hframe Hi) as (r' & Hi' & _ & Hsame).
      rewrite Hi'. f_equal. apply Hsame.
      intros (u & Hid & Hu)%list_elem_of_fmap. by apply (Hnone u). }
    assert (a_country_name r = None) as Hnull.
    { unfold selected in Hsel. apply andb_prop in Hsel as [Hc _].
      by apply bool_decide_eq_true in Hc. }
    split_and!; [done | done | done |].
    intros r' Hr'. rewrite Hkept in Hr'. by injection Hr' as <-.
Qed.

End Enrich.

(** * Further properties of the three scripts *)

(** ** Tables after a list of statements *)

Lemma events_exec_all stmts d :
  events_minimal (exec_all stmts d) = upsert e_id (omap is_evt stmts) (events_minimal d).
Proof.
  revert d. induction stmts as [| s stmts IH]; intros d; [done |].
  unfold exec_all in *. simpl. rewrite IH. by destruct s.
Qed.

Lemma correlations_exec_all stmts d :
  attribute_correlations (exec_all stmts d)
  = upsert corr_key (omap is_corr stmts) (attribute_correlations d).
Proof.
  revert d. induction stmts as [| s stmts IH]; intros d; [done |].
  unfold exec_all in *. simpl. rewrite IH. by destruct s.
Qed.

Lemma omap_fmap_Some {A B} (f : B → option A) (g : A → B) (l : list A) :
  (∀ x, f (g x) = Some x) → omap f (g <$> l) = l.
Proof.
  intros Hfg. induction l as [| x l IH]; [done |]. simpl. rewrite Hfg. simpl.
  f_equal. exact IH.
Qed.

Lemma omap_fmap_None {A B C} (f : B → option C) (g : A → B) (l : list A) :
  (∀ x, f (g x) = None) → omap f (g <$> l) = [].
Proof. intros Hfg. induction l as [| x l IH]; [done |]. simpl. by rewrite Hfg. Qed.

Lemma db_eq d1 d2 :
  events_minimal d1 = events_minimal d2 →
  attribute_correlations d1 = attribute_correlations d2 →
  attributes_minimal d1 = attributes_minimal d2 →
  sync_state d1 = sync_state d2 →
  d1 = d2.
Proof. destruct d1, d2. simpl. by intros -> -> -> ->. Qed.

(** Statements alone never change the committed state. *)
Lemma run_executes_committed acts c :
  Forall is_execute acts →
  run_actions acts c = (Done, (run_actions acts c).2)
  ∧ committed (run_actions acts c).2 = committed c.
Proof.
  revert c. induction acts as [| a acts IH]; intros c Hacts; [done |].
  apply Forall_cons in Hacts as [Ha Hacts]. destruct a as [s | |]; [| done | done].
  exact (IH (step (Execute s) c) Hacts).
Qed.

Section Upsert.
Context {rt : PyRuntime}.

(** The upsert phase without its commit. *)
Lemma upsert_actions_split attrs evs :
  ∃ inserts, upsert_actions attrs evs = inserts ++ [Commit]
             ∧ Forall is_execute inserts
             ∧ statements inserts
               = (EVT_SQL <$> evt_params evs) ++ (CORR_SQL <$> corr_params attrs).
Proof.
  exists (execute_batch EVT_SQL (evt_params evs)
          ++ match corr_params attrs with
             | [] => []
             | p :: ps => execute_batch CORR_SQL (p :: ps)
             end).
  split_and!.
  - unfold upsert_actions. by rewrite <- app_assoc.
  - apply Forall_app. split.
    + apply Forall_fmap, Forall_true. done.
    + destruct (corr_params attrs); [constructor |]. apply Forall_fmap, Forall_true. done.
  - rewrite <- statements_upsert. unfold upsert_actions.
    rewrite !statements_app. simpl. by rewrite app_nil_r.
Qed.

Lemma pipeline_statements_closed_form attrs evs loads now d :
  exec_all (pipeline_statements attrs evs loads now) d
  = {| events_minimal := upsert e_id (evt_params evs) (events_minimal d);
       attribute_correlations :=
         upsert corr_key (corr_params attrs) (attribute_correlations d);
       attributes_minimal := attributes_minimal d ++ concat loads;
       sync_state := alter (λ _, Some now) 1 (sync_state d) |}.
Proof.
  destruct (pipeline_statements_tables attrs evs loads now d) as (Ha & Hs & _).
  apply db_eq; simpl; [| | done | done].
  - rewrite events_exec_all. f_equal. unfold pipeline_statements.
    rewrite !omap_app, (omap_fmap_Some is_evt EVT_SQL) by done.
    rewrite (omap_fmap_None is_evt CORR_SQL), (omap_fmap_None is_evt COPY_attributes) by done.
    simpl. by rewrite app_nil_r.
  - rewrite correlations_exec_all. f_equal. unfold pipeline_statements.
    rewrite !omap_app, (omap_fmap_Some is_corr CORR_SQL) by done.
    rewrite (omap_fmap_None is_corr EVT_SQL), (omap_fmap_None is_corr COPY_attributes) by done.
    simpl. by rewrite app_nil_r.
Qed.

End Upsert.

(** ** The upsert phase and complete runs *)

Lemma upsert_lookup `{Countable K} {V} (key : V → K) (ps : list V) (t : gmap K V) (k : K) :
  upsert key ps t !! k
  = match t !! k with
    | Some v => Some v
    | None => head (filter (λ p, key p = k) ps)
    end.
Proof.
  revert t. induction ps as [| p ps IH]; intros t.
  - simpl. by destruct (t !! k).
  - unfold upsert in *. simpl. rewrite IH. unfold insert_or_ignore.
    destruct (t !! key p) as [v |] eqn:Hp.
    + destruct (t !! k) as [w |] eqn:Hk; [done |].
      rewrite filter_cons_False; [done |]. intros Heq. congruence.
    + destruct (decide (key p = k)) as [<- | Hne].
      * rewrite lookup_insert_eq, Hp. by rewrite filter_cons_True.
      * rewrite lookup_insert_ne by done. by rewrite filter_cons_False.
Qed.

Section TailFacts.
Context {rt : PyRuntime}.

Lemma load_tail_absorbed d1 size emap values attrs now :
  Forall (absorbed d1) (load_attributes size emap values attrs ++ advance_checkpoint now).
Proof.
  apply Forall_app. split; [| repeat constructor].
  unfold load_attributes. case_bool_decide; [repeat constructor |].
  generalize (chunks size attrs). intros cs.
  induction cs as [| c cs IH]; simpl; [constructor |].
  destruct (write_csv _ _ c); repeat constructor. done.
Qed.

(** X1: the upsert phase is one transaction.  A failure before its commit
    has run leaves the whole warehouse as it was; once the commit has run,
    [events_minimal] and [attribute_correlations] hold the complete upsert,
    wherever the run stops afterwards. *)
Theorem upsert_phase_atomic (size : Z) (attrs : list Attribute) (evs : list Event)
    (now : datetime) (d : db) :
  (∀ k : nat, (k < length (upsert_actions attrs evs))%nat →
     run_script (Some k) (pipeline size attrs evs now) d = (Raised, d))
  ∧ (∀ fault,
       (∀ k : nat, fault = Some k → (length (upsert_actions attrs evs) ≤ k)%nat) →
       events_minimal (run_script fault (pipeline size attrs evs now) d).2
       = upsert e_id (evt_params evs) (events_minimal d)
       ∧ attribute_correlations (run_script fault (pipeline size attrs evs now) d).2
         = upsert corr_key (corr_params attrs) (attribute_correlations d)).
Proof.
  destruct (upsert_actions_split attrs evs) as (inserts & Hsplit & Hexec & Hstmts).
  split.
  - intros k Hk. unfold run_script, interrupt, pipeline.
    rewrite Hsplit in *. rewrite length_app in Hk. simpl in Hk.
    rewrite bool_decide_eq_true_2 by (rewrite !length_app; simpl; lia).
    rewrite take_app_le by (rewrite length_app; simpl; lia).
    rewrite take_app_le by lia.
    rewrite run_actions_app.
    destruct (run_executes_committed (take k inserts) (connect d)) as [Ho Hc];
      [by apply Forall_take |].
    destruct (run_actions (take k inserts) (connect d)) as [o c'].
    injection Ho as ->. simpl in *. by rewrite Hc.
  - intros fault Hfault.
    set (d1 := exec_all (statements (upsert_actions attrs evs)) d).
    assert (events_minimal d1 = upsert e_id (evt_params evs) (events_minimal d)
            ∧ attribute_correlations d1
              = upsert corr_key (corr_params attrs) (attribute_correlations d))
      as [He Hc].
    { unfold d1. rewrite statements_upsert, events_exec_all, correlations_exec_all.
      rewrite !omap_app, (omap_fmap_Some is_evt EVT_SQL) by done.
      rewrite (omap_fmap_None is_evt CORR_SQL) by done.
      rewrite (omap_fmap_Some is_corr CORR_SQL) by done.
      rewrite (omap_fmap_None is_corr EVT_SQL) by done.
      by rewrite app_nil_r. }
    rewrite <- He, <- Hc.
    assert (∃ k : nat, (length (upsert_actions attrs evs) ≤ k)%nat
              ∧ (run_script fault (pipeline size attrs evs now) d).2
                = committed (run_actions (take k (pipeline size attrs evs now)) (connect d)).2)
      as (k & Hk & ->).
    { destruct fault as [k |].
      - exists k. split; [by apply Hfault | apply run_script_Some].
      - exists (length (pipeline size attrs evs now)). split.
        + unfold pipeline. rewrite length_app. lia.
        + rewrite run_script_None. simpl. by rewrite firstn_all. }
    unfold pipeline. rewrite take_app_ge by done.
    rewrite run_actions_app, run_actions_ends_commit
      by (apply Raise_not_in_upsert || apply last_upsert).
    fold d1.
    assert (tables_are d1
              (run_actions
                 (take (k - length (upsert_actions attrs evs))
                    (load_attributes size (event_map evs) (id_to_value attrs) attrs
                     ++ advance_checkpoint now))
                 (connect d1)).2) as [[_ ?] [_ ?]]; [| done].
    apply run_actions_invariant; [| split; split; done].
    intros a c' Ha. apply step_tables_are.
    pose proof (load_tail_absorbed d1 size (event_map evs) (id_to_value attrs) attrs now)
      as Habs.
    rewrite Forall_forall in Habs. apply Habs.
    apply elem_of_take in Ha as (i & Hi & _). by eapply list_elem_of_lookup_2.
Qed.

(** A pipeline all of whose attributes can be staged runs to its end. *)
Lemma pipeline_complete size attrs evs now rows d :
  0 < size →
  write_csv (event_map evs) (id_to_value attrs) attrs = Some rows →
  run_script None (pipeline size attrs evs now) d = (Done, loaded attrs evs rows now d).
Proof.
  intros Hsize Hrows.
  destruct (load_attributes_staged size _ _ attrs rows Hsize Hrows)
    as (loads & Hloads & Hacts & Hcat).
  rewrite run_script_None. unfold pipeline, advance_checkpoint.
  change [Execute (UPDATE_sync_state now); Commit]
    with ([Execute (UPDATE_sync_state now)] ++ [Commit]).
  rewrite Hacts, !app_assoc, run_actions_commit.
  - simpl. f_equal.
    rewrite !statements_app, statements_upsert, statements_copy_commit. simpl.
    rewrite <- !app_assoc.
    change ((EVT_SQL <$> evt_params evs) ++ (CORR_SQL <$> corr_params attrs)
            ++ (COPY_attributes <$> loads) ++ [UPDATE_sync_state now])
      with (pipeline_statements attrs evs loads now).
    rewrite pipeline_statements_closed_form. unfold loaded. by rewrite Hcat.
  - rewrite !not_elem_of_app. split_and!.
    + apply Raise_not_in_upsert.
    + apply Raise_not_in_copy_commit.
    + by intros ?%list_elem_of_singleton.
Qed.

Lemma pipeline_Done_loaded size attrs evs now fault d d' :
  0 < size →
  run_script fault (pipeline size attrs evs now) d = (Done, d') →
  ∃ rows, write_csv (event_map evs) (id_to_value attrs) attrs = Some rows
          ∧ d' = loaded attrs evs rows now d.
Proof.
  intros Hsize Hrun.
  destruct (pipeline_Done _ _ _ _ _ _ _ Hsize Hrun) as (loads & _ & Hrows & ->).
  exists (concat loads). split; [done |]. apply pipeline_statements_closed_form.
Qed.

(** X2: what a complete run leaves.  A backfill or a sync ends [Done] with
    new data exactly when its fetches succeed and every fetched attribute can
    be staged, and the warehouse is then the old one with the fetched events
    and the extracted edges upserted, one row per fetched attribute appended
    in fetch order, and the checkpoint set: the chunk size does not show in
    the result. *)
Theorem complete_run_closed_form (fuel : nat) (misp : Misp) (start now : datetime)
    (fault : option nat) (d d' : db) :
  (backfill fuel misp now fault d = (Done, d') ↔
     ∃ attrs evs rows,
       fetch_all fuel misp = Fetched attrs
       ∧ fetch_events misp (evt_ids attrs) = Some evs
       ∧ write_csv (event_map evs) (id_to_value attrs) attrs = Some rows
       ∧ (∀ k : nat, fault = Some k →
            (length (pipeline backfill_CSV_CHUNK attrs evs now) ≤ k)%nat)
       ∧ d' = loaded attrs evs rows now d)
  ∧ (sync misp start now fault d = (Done, d') ↔
       (restSearch_since misp (since_ts start d) = Some [] ∧ d' = d)
       ∨ ∃ attrs evs rows,
           restSearch_since misp (since_ts start d) = Some attrs
           ∧ attrs ≠ []
           ∧ fetch_events misp (evt_ids attrs) = Some evs
           ∧ write_csv (event_map evs) (id_to_value attrs) attrs = Some rows
           ∧ (∀ k : nat, fault = Some k →
                (length (pipeline sync_CSV_CHUNK attrs evs now) ≤ k)%nat)
           ∧ d' = loaded attrs evs rows now d).
Proof.
  assert (∀ size attrs evs,
            0 < size →
            run_script fault (pipeline size attrs evs now) d = (Done, d') ↔
            ∃ rows, write_csv (event_map evs) (id_to_value attrs) attrs = Some rows
                    ∧ (∀ k : nat, fault = Some k →
                         (length (pipeline size attrs evs now) ≤ k)%nat)
                    ∧ d' = loaded attrs evs rows now d) as Hpipe.
  { intros size attrs evs Hsize. split.
    - intros Hrun.
      destruct (pipeline_Done_loaded _ _ _ _ _ _ _ Hsize Hrun) as (rows & Hrows & ->).
      exists rows. split_and!; [done | | done].
      intros k ->. injection Hrun as Hdone _.
      unfold interrupt in Hdone. case_bool_decide as Hk; [| lia].
      by rewrite run_actions_snoc_Raise in Hdone.
    - intros (rows & Hrows & Hfault & ->).
      rewrite <- (pipeline_complete size attrs evs now rows d Hsize Hrows).
      destruct fault as [k |]; [| done].
      unfold run_script, interrupt.
      by rewrite bool_decide_eq_false_2 by (specialize (Hfault k eq_refl); lia). }
  split.
  - unfold backfill. split.
    + intros Hrun.
      destruct (fetch_all fuel misp) as [attrs | |] eqn:Hfetch; [| done | done].
      destruct (fetch_events misp (evt_ids attrs)) as [evs |] eqn:Hevs; [| done].
      apply Hpipe in Hrun as (rows & ? & ? & ?); [| done].
      by exists attrs, evs, rows.
    + intros (attrs & evs & rows & -> & -> & Hrows & Hfault & Hd').
      apply Hpipe; [done |]. by exists rows.
  - unfold sync. split.
    + intros Hrun.
      destruct (restSearch_since misp (since_ts start d)) as [[| a attrs] |] eqn:Hfetch;
        [left; by injection Hrun as <- | | done].
      destruct (fetch_events misp (evt_ids (a :: attrs))) as [evs |] eqn:Hevs; [| done].
      apply Hpipe in Hrun as (rows & ? & ? & ?); [| done].
      right. by exists (a :: attrs), evs, rows.
    + intros [[-> ->] | (attrs & evs & rows & -> & Hne & -> & Hrows & Hfault & Hd')];
        [done |].
      destruct attrs as [| a attrs]; [done |].
      apply Hpipe; [done |]. by exists rows.
Qed.

(** X3: an insert-or-ignore batch keeps what is there and otherwise takes the
    first row of the batch with the key.  After a complete backfill an event
    row the warehouse already held is unchanged, and an id it did not hold
    has the row of the first fetched event with that id, its fields as
    fetched and its timestamp converted into [last_modified]; the same holds
    for correlation edges and their pair of attribute ids. *)
Theorem upsert_keeps_existing_else_first (fuel : nat) (misp : Misp) (now : datetime)
    (fault : option nat) (d d' : db) :
  backfill fuel misp now fault d = (Done, d') →
  ∃ attrs evs,
    fetch_all fuel misp = Fetched attrs
    ∧ fetch_events misp (evt_ids attrs) = Some evs
    ∧ (∀ k, events_minimal d' !! k
            = match events_minimal d !! k with
              | Some row => Some row
              | None => evt_param <$> head (filter (λ e, ev_id e = k) evs)
              end)
    ∧ (∀ k, attribute_correlations d' !! k
            = match attribute_correlations d !! k with
              | Some row => Some row
              | None => head (filter (λ p, corr_key p = k) (corr_params attrs))
              end)
    ∧ (∀ e row, events_minimal d !! ev_id e = None →
         head (filter (λ e', ev_id e' = ev_id e) evs) = Some e →
         events_minimal d' !! ev_id e = Some row →
         e_id row = ev_id e ∧ e_info row = py_get (ev_info e) ∧ e_date row = ev_date e
         ∧ e_attribute_count row = ev_attribute_count e
         ∧ e_last_modified row = to_dt (ev_timestamp e)).
Proof.
  intros Hrun.
  destruct (backfill_Done _ _ _ _ _ _ Hrun) as (attrs & evs & loads & Hfetch & Hevs & _ & ->).
  exists attrs, evs. rewrite pipeline_statements_closed_form. simpl.
  assert (∀ k, upsert e_id (evt_params evs) (events_minimal d) !! k
               = match events_minimal d !! k with
                 | Some row => Some row
                 | None => evt_param <$> head (filter (λ e, ev_id e = k) evs)
                 end) as Hev.
  { intros k. rewrite upsert_lookup. destruct (events_minimal d !! k); [done |].
    unfold evt_params. clear. induction evs as [| e evs IH]; [done |].
    rewrite fmap_cons. destruct (decide (ev_id e = k)) as [He | He].
    - by rewrite !filter_cons_True.
    - by rewrite !filter_cons_False. }
  split_and!; [done | done | exact Hev | |].
  - intros k. apply upsert_lookup.
  - intros e row Hnew Hfirst Hrow. rewrite Hev, Hnew, Hfirst in Hrow.
    by injection Hrow as <-.
Qed.

End TailFacts.

(** ** Lookup maps and staging *)

Lemma fold_insert_lookup `{Countable K} {A V} (key : A → K) (val : A → V)
    (l : list A) (m0 : gmap K V) (k : K) :
  fold_left (λ m x, <[key x := val x]> m) l m0 !! k
  = match last (filter (λ x, key x = k) l) with
    | Some x => Some (val x)
    | None => m0 !! k
    end.
Proof.
  induction l as [| x l IH] using rev_ind; [done |].
  rewrite fold_left_app, filter_app. simpl.
  destruct (decide (key x = k)) as [<- | Hne].
  - rewrite lookup_insert_eq, filter_cons_True by done. by rewrite last_app_cons.
  - rewrite lookup_insert_ne by done.
    rewrite filter_cons_False by done. by rewrite app_nil_r.
Qed.

Lemma replace_newline_no_newline s : has_newline (replace_newline s) = false.
Proof.
  induction s as [| c s IH]; [done |]. simpl. rewrite IH, orb_false_r.
  destruct (Ascii.eqb c "010") eqn:E; [done | exact E].
Qed.

Lemma replace_newline_length s : String.length (replace_newline s) = String.length s.
Proof. induction s as [| c s IH]; [done |]. simpl. by rewrite IH. Qed.

Lemma replace_newline_clean s : has_newline s = false → replace_newline s = s.
Proof.
  induction s as [| c s IH]; [done |]. simpl.
  intros [Hc Hs]%orb_false_elim. rewrite Hc. f_equal. by apply IH.
Qed.

(** [s[:n]] is the prefix of [s] that ends where the code point of index
    [n] starts, or all of [s]. *)
Lemma take_code_points_prefix n s :
  ∃ rest, s = take_code_points n s +:+ rest
          ∧ (code_points (take_code_points n s) ≤ n)%nat
          ∧ match rest with
            | EmptyString => True
            | String c _ =>
                is_continuation c = false ∧ code_points (take_code_points n s) = n
            end.
Proof.
  revert n. induction s as [| c s IH]; intros n.
  { exists EmptyString. split_and!; [done | simpl; lia | done]. }
  simpl. destruct (is_continuation c) eqn:Hc.
  - destruct (IH n) as (rest & Heq & Hle & Hrest). exists rest.
    simpl. rewrite Hc. split_and!; [| done | done].
    change (String c s = String c (take_code_points n s +:+ rest)). by rewrite <- Heq.
  - destruct n as [| n].
    + exists (String c s). split; [done |]. split; [simpl; lia | done].
    + destruct (IH n) as (rest & Heq & Hle & Hrest). exists rest.
      simpl. rewrite Hc. split_and!; [| lia |].
      { change (String c s = String c (take_code_points n s +:+ rest)). by rewrite <- Heq. }
      destruct rest as [| c' rest]; [done |].
      destruct Hrest as [Hc' ->]. done.
Qed.

Lemma take_code_points_all n s :
  (code_points s ≤ n)%nat → take_code_points n s = s.
Proof.
  revert n. induction s as [| c s IH]; intros n Hn; [done |].
  simpl in *. destruct (is_continuation c).
  - by rewrite IH.
  - destruct n as [| n]; [lia |]. rewrite IH by lia. done.
Qed.

Lemma take_code_points_no_newline n s :
  has_newline s = false → has_newline (take_code_points n s) = false.
Proof.
  revert n. induction s as [| c s IH]; intros n; [done |].
  simpl. intros [Hc Hs]%orb_false_elim.
  destruct (is_continuation c).
  - simpl. by rewrite Hc, IH.
  - destruct n as [| n]; [done |]. simpl. by rewrite Hc, IH.
Qed.

Lemma code_points_replace_newline s : code_points (replace_newline s) = code_points s.
Proof.
  induction s as [| c s IH]; [done |]. simpl.
  destruct (Ascii.eqb c "010") eqn:Hc.
  - apply Ascii.eqb_eq in Hc as ->. simpl. by rewrite IH.
  - by rewrite IH.
Qed.

Lemma py_get_default_None {A} (x : A) field :
  py_get_default x field = None ↔ field = Some None.
Proof. unfold py_get_default. by destruct field as [[] |]. Qed.

Lemma lookup_field_null {A} (emap : gmap Z Event) (key : Event → option (option A)) k :
  emap !! k ≫= key = Some None ↔ ∃ e, emap !! k = Some e ∧ key e = Some None.
Proof.
  destruct (emap !! k) as [e |]; simpl.
  - split; [by exists e | by intros (? & [= <-] & ?)].
  - split; [done | by intros (? & ? & _)].
Qed.

Lemma copy_cell_Some s t : copy_cell s = Some t → t = s.
Proof. unfold copy_cell. case_bool_decide; [done |]. by intros [= <-]. Qed.

Lemma geo_types_not_null t : t ∈ geo_types → t ≠ "\N" ∧ t ≠ EmptyString.
Proof.
  intros Hin. unfold geo_types in Hin.
  repeat (apply elem_of_cons in Hin as [-> | Hin]; [done |]).
  by apply elem_of_nil in Hin.
Qed.

Section Staging.
Context {rt : PyRuntime}.

(** X4: the two lookup maps are dicts built by comprehension, so of several
    entries with one key the last wins: [id_to_value] maps an id to the value
    of the last fetched attribute with that id (the empty text when that one
    has no value, [None] when its value is null) and [event_map] an id to
    the last fetched event with that id; an id no fetched record has is not
    in the map. *)
Theorem lookup_maps_last_wins (attrs : list Attribute) (evs : list Event) (k : Z) :
  id_to_value attrs !! k
  = (λ a, py_get_default EmptyString (attr_value a))
      <$> last (filter (λ a, attr_id a = k) attrs)
  ∧ event_map evs !! k = last (filter (λ e, ev_id e = k) evs)
  ∧ (id_to_value attrs !! k = None ↔ ∀ a, a ∈ attrs → attr_id a ≠ k)
  ∧ (event_map evs !! k = None ↔ ∀ e, e ∈ evs → ev_id e ≠ k).
Proof.
  assert (∀ {A} (key : A → Z) (l : list A),
            last (filter (λ x, key x = k) l) = None ↔ ∀ x, x ∈ l → key x ≠ k) as Hnone.
  { intros A key l. rewrite last_None. split.
    - intros Hnil x Hx Hk.
      assert (x ∈ filter (λ x, key x = k) l) as Hin by (apply list_elem_of_filter; split; done).
      rewrite Hnil in Hin. by apply elem_of_nil in Hin.
    - intros Hall. apply elem_of_nil_inv. intros x [Hk Hx]%list_elem_of_filter.
      by apply (Hall x). }
  assert (id_to_value attrs !! k
          = (λ a, py_get_default EmptyString (attr_value a))
              <$> last (filter (λ a, attr_id a = k) attrs)) as Hval.
  { unfold id_to_value. rewrite fold_insert_lookup, lookup_empty.
    by destruct (last _). }
  assert (event_map evs !! k = last (filter (λ e, ev_id e = k) evs)) as Hev.
  { unfold event_map.
    rewrite (fold_insert_lookup ev_id (λ e, e)), lookup_empty.
    destruct (last (filter (λ e, ev_id e = k) evs)); done. }
  split_and!; [done | done | |].
  - rewrite Hval, fmap_None. apply Hnone.
  - rewrite Hev. apply Hnone.
Qed.

(** What makes the staging of one attribute raise. *)
Lemma rel_part_None emap values rel :
  rel_part emap values rel = None
  ↔ ∃ e, emap !! rel_event_id rel = Some e ∧ ev_info e = Some None.
Proof.
  unfold rel_part. rewrite <- lookup_field_null, <- (py_get_default_None EmptyString).
  by destruct (py_get_default EmptyString (emap !! rel_event_id rel ≫= ev_info)).
Qed.

Lemma csv_row_None emap values a :
  csv_row emap values a = None ↔
    (∃ ts, attr_timestamp a = Some ts ∧ ts ≠ EmptyString ∧ to_dt (Some ts) = None)
    ∨ attr_value a = Some None
    ∨ attr_comment a = Some None
    ∨ (∃ e, emap !! attr_event_id a = Some e
            ∧ (ev_info e = Some None ∨ ev_Galaxy e = Some None
               ∨ ∃ names, ev_Galaxy e = Some (Some names) ∧ None ∈ names))
    ∨ (∃ rel e, rel ∈ related a ∧ emap !! rel_event_id rel = Some e
                ∧ ev_info e = Some None).
Proof.
  assert (mapM (rel_part emap values) (related a) = None
          ↔ ∃ rel e, rel ∈ related a ∧ emap !! rel_event_id rel = Some e
                     ∧ ev_info e = Some None) as Hparts.
  { rewrite mapM_None, Exists_exists. split.
    - intros (rel & Hrel & (e & He & Hinfo)%rel_part_None). by exists rel, e.
    - intros (rel & e & Hrel & He & Hinfo). exists rel. split; [done |].
      apply rel_part_None. by exists e. }
  assert (∀ created : option string,
            created = match attr_timestamp a with
                      | None | Some EmptyString => Some "\N"
                      | Some ts => isoformat <$> to_dt (Some ts)
                      end →
            created = None
            ↔ ∃ ts, attr_timestamp a = Some ts ∧ ts ≠ EmptyString
                    ∧ to_dt (Some ts) = None) as Hcreated.
  { intros created ->. destruct (attr_timestamp a) as [[| c ts] |].
    - split; [done |]. by intros (ts & [= <-] & ? & _).
    - rewrite fmap_None. split.
      + intros Hbad. by exists (String c ts).
      + by intros (ts' & [= <-] & _ & Hbad).
    - split; [done |]. by intros (ts & ? & _). }
  unfold csv_row. fold (related a).
  match goal with
  | |- context [match attr_timestamp a with
                | Some ts => @?f ts | None => ?x end] =>
      specialize (Hcreated _ eq_refl);
      set (created := match attr_timestamp a with Some ts => f ts | None => x end) in *
  end.
  destruct (mapM (rel_part emap values) (related a)) as [rel_parts |] eqn:E1.
  2:{ split; [| done]. intros _. do 4 right. by apply Hparts. }
  assert (¬ ∃ rel e, rel ∈ related a ∧ emap !! rel_event_id rel = Some e
                     ∧ ev_info e = Some None) as N1.
  { intros Hex. by apply Hparts in Hex. }
  cbn [mbind option_bind].
  destruct (py_get_default EmptyString (emap !! attr_event_id a ≫= ev_info))
    as [info |] eqn:E2.
  2:{ split; [| done]. intros _. do 3 right. left.
      apply py_get_default_None, lookup_field_null in E2 as (e & He & Hinfo).
      exists e. split; [done |]. by left. }
  cbn [mbind option_bind].
  destruct (py_get_default [] (emap !! attr_event_id a ≫= ev_Galaxy))
    as [galaxies |] eqn:E3.
  2:{ split; [| done]. intros _. do 3 right. left.
      apply py_get_default_None, lookup_field_null in E3 as (e & He & Hgal).
      exists e. split; [done |]. right. by left. }
  cbn [mbind option_bind].
  destruct (mapM id galaxies) as [names |] eqn:E4.
  2:{ split; [| done]. intros _. do 3 right. left.
      apply mapM_None, Exists_exists in E4 as (x & Hx & Hid). simpl in Hid. subst x.
      unfold py_get_default in E3.
      destruct (emap !! attr_event_id a) as [e |] eqn:He; simpl in E3.
      - exists e. split; [done |]. do 2 right.
        destruct (ev_Galaxy e) as [[ns |] |] eqn:Hgal; simpl in E3.
        + injection E3 as <-. by exists ns.
        + done.
        + injection E3 as <-. by apply elem_of_nil in Hx.
      - injection E3 as <-. by apply elem_of_nil in Hx. }
  cbn [mbind option_bind].
  destruct (py_get_default EmptyString (attr_value a)) as [value |] eqn:E5.
  2:{ split; [| done]. intros _. right. left. by apply py_get_default_None in E5. }
  cbn [mbind option_bind].
  destruct created as [created' |] eqn:E6.
  2:{ split; [| done]. intros _. left. by apply Hcreated. }
  cbn [mbind option_bind].
  destruct (py_get_default EmptyString (attr_comment a)) as [comment |] eqn:E7.
  2:{ split; [| done]. intros _. do 2 right. left. by apply py_get_default_None in E7. }
  cbn [mbind option_bind].
  split; [done |].
  intros [Hts | [Hval | [Hcom | [(e & He & Hev) | Hrel]]]]; exfalso.
  - by apply Hcreated in Hts.
  - apply (py_get_default_None EmptyString) in Hval. congruence.
  - apply (py_get_default_None EmptyString) in Hcom. congruence.
  - rewrite He in E2, E3. simpl in E2, E3.
    destruct Hev as [Hinfo | [Hgal | (ns & Hgal & Hin)]].
    + rewrite Hinfo in E2. done.
    + rewrite Hgal in E3. done.
    + rewrite Hgal in E3. injection E3 as <-.
      assert (mapM id ns = None) as Hnone; [| congruence].
      apply mapM_None, Exists_exists. by exists None.
  - by apply N1.
Qed.

(** X5: when staging raises.  Building the row of an attribute raises exactly
    when its timestamp is present, not empty and not convertible, when its
    value or its comment is null, when its event is known and has a null
    info, a null galaxy list or a galaxy without a name, or when the event of
    one of its related attributes is known and has a null info; the COPY
    loop raises exactly when some attribute is such, and the run then cannot
    end [Done]. *)
Theorem staging_raises_iff (size : Z) (attrs : list Attribute) (evs : list Event)
    (now : datetime) (d : db) :
  let emap := event_map evs in
  let values := id_to_value attrs in
  (∀ a, csv_row emap values a = None ↔
     (∃ ts, attr_timestamp a = Some ts ∧ ts ≠ EmptyString ∧ to_dt (Some ts) = None)
     ∨ attr_value a = Some None
     ∨ attr_comment a = Some None
     ∨ (∃ e, emap !! attr_event_id a = Some e
             ∧ (ev_info e = Some None ∨ ev_Galaxy e = Some None
                ∨ ∃ names, ev_Galaxy e = Some (Some names) ∧ None ∈ names))
     ∨ (∃ rel e, rel ∈ related a ∧ emap !! rel_event_id rel = Some e
                 ∧ ev_info e = Some None))
  ∧ (0 < size →
       (Raise ∈ load_attributes size emap values attrs
        ↔ ∃ a, a ∈ attrs ∧ csv_row emap values a = None)
       ∧ ((∃ a, a ∈ attrs ∧ csv_row emap values a = None) →
          ∀ fault, (run_script fault (pipeline size attrs evs now) d).1 = Raised)).
Proof.
  intros emap values. split; [intros a; apply csv_row_None |].
  intros Hsize.
  assert (Raise ∈ load_attributes size emap values attrs
          ↔ ∃ a, a ∈ attrs ∧ csv_row emap values a = None) as Hiff.
  { split.
    - intros Hraise.
      destruct (write_csv emap values attrs) as [rows |] eqn:Hrows.
      + destruct (load_attributes_staged size emap values attrs rows Hsize Hrows)
          as (loads & _ & Hacts & _).
        rewrite Hacts in Hraise. by apply Raise_not_in_copy_commit in Hraise.
      + unfold write_csv in Hrows. apply mapM_None, Exists_exists in Hrows. done.
    - intros (a & Ha & Hrow).
      unfold load_attributes. rewrite bool_decide_eq_false_2 by lia.
      destruct (mapM (write_csv emap values) (chunks size attrs)) as [loads |] eqn:Hloads;
        [| by apply copy_loop_raises].
      apply mapM_concat in Hloads. rewrite concat_chunks in Hloads by done.
      apply mapM_Some in Hloads.
      apply list_elem_of_lookup in Ha as [i Hi].
      destruct (Forall2_lookup_l _ _ _ _ _ Hloads Hi) as (r & _ & Hr). congruence. }
  split; [exact Hiff |].
  intros Hbad fault. apply Hiff in Hbad.
  destruct (run_actions_outcome (interrupt fault (pipeline size attrs evs now)) (connect d))
    as [Hdone | Hraised]; [| exact Hraised].
  exfalso.
  pose proof (interrupt_Done _ _ _ Hdone) as Heq. rewrite Heq in Hdone.
  apply run_actions_Done_no_Raise in Hdone. apply Hdone.
  unfold pipeline. rewrite !elem_of_app. right. by left.
Qed.

(** X6: a loaded row starts without geography and is found by the geo
    script.  Every staged row has its four geography columns NULL and the id
    of its attribute, and it satisfies the selection of the geo enrichment
    exactly when the attribute has one of the five address-like or
    domain-like types. *)
Theorem staged_rows_await_enrichment (emap : gmap Z Event) (values : gmap Z (option string))
    (attrs : list Attribute) (rows : list AttrRow) :
  write_csv emap values attrs = Some rows →
  Forall2 (λ a r,
             a_id r = attr_id a
             ∧ a_country_name r = None ∧ a_country_code r = None
             ∧ a_region_name r = None ∧ a_city r = None
             ∧ (selected r = true ↔ ∃ t, attr_type a = Some t ∧ t ∈ geo_types))
    attrs rows.
Proof.
  unfold write_csv. rewrite mapM_Some. intros Hrows.
  eapply Forall2_impl; [exact Hrows |]. intros a r Hr. simpl in Hr.
  apply csv_row_Some in Hr
    as (rel_parts & info & galaxies & names & value & created & comment
        & _ & _ & _ & _ & _ & _ & ->).
  split_and!; try done.
  unfold selected. cbn [a_country_name a_type].
  rewrite bool_decide_eq_true_2 by done. simpl.
  unfold copy_cell. case_bool_decide as Hnull.
  - split; [done |]. intros (t & Ht & Hin). rewrite Ht in Hnull. simpl in Hnull.
    subst t. by destruct (geo_types_not_null _ Hin).
  - rewrite bool_decide_eq_true. split.
    + intros Hin. destruct (attr_type a) as [t |]; simpl in *; [by exists t |].
      by destruct (geo_types_not_null _ Hin).
    + intros (t & -> & Hin). done.
Qed.

(** X7: line feeds never reach the free-text columns, and the related-event
    description is cut at 50 characters.  In every staged row the value, the
    comment and the event info hold no line feed; the staged value is as
    long as the attribute's value and equal to it when that has no line
    feed.  The related-event info is the comma-separated list of one part per
    related attribute, [event id : description | value]: the description is
    the info of the related event, line feeds replaced, up to the start of
    its code point of index 50 (all of it when it has at most 50), and the
    value is that of the related attribute, the text [None] when null. *)
Theorem staged_text_has_no_newline (emap : gmap Z Event) (values : gmap Z (option string))
    (a : Attribute) (r : AttrRow) :
  csv_row emap values a = Some r →
  (∀ s, a_value r = Some s ∨ a_comment r = Some s ∨ a_event_info r = Some s →
        has_newline s = false)
  ∧ (∀ s, a_value r = Some s →
          ∃ v, py_get_default EmptyString (attr_value a) = Some v
               ∧ String.length s = String.length v
               ∧ (has_newline v = false → s = v))
  ∧ ∃ parts,
      a_related_event_info r = copy_cell (String.concat ", " parts)
      ∧ Forall2
          (λ rel part,
             ∃ info desc rest,
               py_get_default EmptyString (emap !! rel_event_id rel ≫= ev_info) = Some info
               ∧ part = pretty (rel_event_id rel) +:+ ":" +:+ desc +:+ "|"
                        +:+ from_option id "None"
                              (py_get_default EmptyString (values !! rel_id rel))
               ∧ replace_newline info = desc +:+ rest
               ∧ (code_points desc ≤ 50)%nat
               ∧ match rest with
                 | EmptyString => True
                 | String c _ => is_continuation c = false ∧ code_points desc = 50%nat
                 end
               ∧ ((code_points info ≤ 50)%nat → desc = replace_newline info)
               ∧ has_newline desc = false)
          (related a) parts.
Proof.
  intros Hr.
  apply csv_row_Some in Hr
    as (rel_parts & info & galaxies & names & value & created & comment
        & Hparts & _ & _ & _ & Hvalue & _ & ->).
  cbn [a_value a_comment a_event_info a_related_event_info].
  split_and!.
  - intros s [Hs | [Hs | Hs]];
      apply copy_cell_Some in Hs as ->; apply replace_newline_no_newline.
  - intros s Hs. apply copy_cell_Some in Hs as ->. exists value.
    split_and!; [done | apply replace_newline_length | apply replace_newline_clean].
  - exists rel_parts. split; [done |].
    apply mapM_Some in Hparts. eapply Forall2_impl; [exact Hparts |].
    intros rel part Hpart. unfold rel_part in Hpart.
    apply bind_Some in Hpart as (info' & Hinfo' & Hpart). injection Hpart as <-.
    destruct (take_code_points_prefix 50 (replace_newline info'))
      as (rest & Heq & Hle & Hrest).
    exists info', (take_code_points 50 (replace_newline info')), rest.
    split_and!; [done | done | done | done | done | |].
    + intros Hinfo. apply take_code_points_all.
      by rewrite code_points_replace_newline.
    + apply take_code_points_no_newline, replace_newline_no_newline.
Qed.

End Staging.

(** ** Failing fetches and the checkpoint round trip *)

Lemma fetch_pages_error misp blocks fuel page attrs log :
  pages_from misp page blocks →
  restSearch_page misp (page + Z.of_nat (length blocks)) = None →
  (length blocks < fuel)%nat →
  fetch_pages fuel misp page attrs log
  = (FetchError, reverse (seqZ page (Z.of_nat (length blocks) + 1)) ++ log).
Proof.
  revert fuel page attrs log.
  induction blocks as [| b blocks IH]; intros fuel page attrs log Hpages Hlast Hfuel.
  - destruct fuel as [| fuel]; [simpl in Hfuel; lia |].
    simpl in *. rewrite Z.add_0_r in Hlast. by rewrite Hlast.
  - destruct fuel as [| fuel]; [simpl in Hfuel; lia |].
    apply pages_from_cons in Hpages as (Hb & Hne & Hrest).
    simpl fetch_pages. rewrite Hb.
    destruct b as [| a b]; [done |].
    rewrite IH; [| done | | simpl in Hfuel; lia].
    + f_equal.
      rewrite (seqZ_cons page) by lia.
      rewrite reverse_cons, <- app_assoc. simpl.
      do 2 f_equal. simpl length. f_equal; lia.
    + rewrite <- Hlast. f_equal. simpl length. lia.
Qed.

Lemma fetch_pages_endless misp fuel page attrs log :
  (∀ p, page ≤ p → ∃ b, restSearch_page misp p = Some b ∧ b ≠ []) →
  (fetch_pages fuel misp page attrs log).1 = FetchOutOfFuel.
Proof.
  revert page attrs log. induction fuel as [| fuel IH]; intros page attrs log Hall; [done |].
  simpl. destruct (Hall page) as (b & -> & Hne); [lia |].
  destruct b as [| a b]; [done |].
  apply IH. intros p Hp. apply Hall. lia.
Qed.

Section Fetches.
Context {rt : PyRuntime}.

(** X8: an HTTP error during pagination.  If the pages [1..m-1] come back
    non-empty and the request for page [m] fails, the loop stops there,
    having requested the pages [1..m] once each, and the backfill raises
    with the warehouse exactly as it was: nothing of the pages already
    fetched is loaded. *)
Theorem page_error_aborts_backfill (misp : Misp) (blocks : list (list Attribute))
    (fuel : nat) :
  (∀ (i : nat) b, blocks !! i = Some b →
     restSearch_page misp (1 + Z.of_nat i) = Some b ∧ b ≠ []) →
  restSearch_page misp (1 + Z.of_nat (length blocks)) = None →
  (length blocks < fuel)%nat →
  fetch_pages fuel misp 1 [] []
  = (FetchError, reverse (seqZ 1 (Z.of_nat (length blocks) + 1)))
  ∧ ∀ now fault d, backfill fuel misp now fault d = (Raised, d).
Proof.
  intros Hpages Hlast Hfuel.
  pose proof (fetch_pages_error misp blocks fuel 1 [] [] Hpages Hlast Hfuel) as Hrun.
  rewrite app_nil_r in Hrun. split; [exact Hrun |].
  intros now fault d. unfold backfill, fetch_all. by rewrite Hrun.
Qed.

(** X9: the pagination loop has no bound of its own.  Against a platform
    that answers every page with a non-empty block the loop makes as many
    requests as it is given time for and never reaches the warehouse. *)
Theorem pagination_needs_an_empty_page (misp : Misp) :
  (∀ page, 1 ≤ page → ∃ b, restSearch_page misp page = Some b ∧ b ≠ []) →
  ∀ fuel,
    fetch_all fuel misp = FetchOutOfFuel
    ∧ length (fetch_pages fuel misp 1 [] []).2 = fuel
    ∧ ∀ now fault d, backfill fuel misp now fault d = (OutOfFuel, d).
Proof.
  intros Hall fuel.
  assert (fetch_all fuel misp = FetchOutOfFuel) as Hfetch.
  { unfold fetch_all. by apply fetch_pages_endless. }
  split_and!; [done | |].
  - assert (∀ page attrs log, 1 ≤ page →
              length (fetch_pages fuel misp page attrs log).2 = (fuel + length log)%nat)
      as Hlen.
    { clear Hfetch.
      induction fuel as [| fuel IH]; intros page attrs log Hpage; [done |].
      simpl. destruct (Hall page Hpage) as (b & -> & Hne).
      destruct b as [| a b]; [done |].
      rewrite IH by lia. simpl. lia. }
    rewrite Hlen by lia. simpl. lia.
  - intros now fault d. unfold backfill. by rewrite Hfetch.
Qed.

(** X10: one request per event.  The events are requested once for each
    distinct event id among the fetched attributes, however many attributes
    share an event; the fetch gives the events in the order of the requests
    when every request succeeds, and raises exactly when the request for the
    event of some attribute fails, in which case the backfill raises with
    the warehouse as it was. *)
Theorem events_fetched_once_each (misp : Misp) (attrs : list Attribute) :
  NoDup (evt_ids attrs)
  ∧ (∀ id, id ∈ evt_ids attrs ↔ ∃ a, a ∈ attrs ∧ attr_event_id a = id)
  ∧ (∀ evs, fetch_events misp (evt_ids attrs) = Some evs ↔
            Forall2 (λ id e, events_view misp id = Some e) (evt_ids attrs) evs)
  ∧ (fetch_events misp (evt_ids attrs) = None ↔
       ∃ a, a ∈ attrs ∧ events_view misp (attr_event_id a) = None)
  ∧ (∀ fuel now fault d,
       fetch_all fuel misp = Fetched attrs →
       (∃ a, a ∈ attrs ∧ events_view misp (attr_event_id a) = None) →
       backfill fuel misp now fault d = (Raised, d)).
Proof.
  assert (∀ id, id ∈ evt_ids attrs ↔ ∃ a, a ∈ attrs ∧ attr_event_id a = id)
    as Hids.
  { intros id. unfold evt_ids. rewrite set_iter_elem.
    rewrite list_elem_of_fmap.
    split; [intros (a & -> & Ha) | intros (a & Ha & <-)]; by exists a. }
  assert (fetch_events misp (evt_ids attrs) = None ↔
            ∃ a, a ∈ attrs ∧ events_view misp (attr_event_id a) = None) as Hnone.
  { unfold fetch_events. rewrite mapM_None, Exists_exists. split.
    - intros (id & Hid & Hfail). apply Hids in Hid as (a & Ha & <-). by exists a.
    - intros (a & Ha & Hfail). exists (attr_event_id a). split; [| done].
      apply Hids. by exists a. }
  split_and!; [apply set_iter_NoDup | exact Hids | | exact Hnone |].
  - intros evs. unfold fetch_events. apply mapM_Some.
  - intros fuel now fault d Hfetch Hfail. apply Hnone in Hfail.
    unfold backfill. by rewrite Hfetch, Hfail.
Qed.

(** The checkpoint of a pipeline run that ended. *)
Lemma loaded_since attrs evs rows now d start' :
  is_Some (sync_state d !! 1) → since start' (loaded attrs evs rows now d) = now.
Proof.
  intros [x Hx]. unfold since, loaded. simpl.
  by rewrite lookup_alter_eq, Hx.
Qed.

(** X11: the checkpoint round trip.  On a warehouse that has the checkpoint
    row, the window of the delta run that follows a complete backfill, or a
    complete sync that found something, starts at the clock reading that
    run took for its checkpoint; after a sync that found nothing, and after
    a run that failed, it starts where it would have started before. *)
Theorem checkpoint_round_trip (fuel : nat) (misp : Misp) (start now : datetime)
    (fault : option nat) (d : db) :
  is_Some (sync_state d !! 1) →
  (∀ d' start', backfill fuel misp now fault d = (Done, d') → since start' d' = now)
  ∧ (∀ d' start', sync misp start now fault d = (Done, d') →
       restSearch_since misp (since_ts start d) ≠ Some [] → since start' d' = now)
  ∧ (∀ d' start', sync misp start now fault d = (Done, d') →
       restSearch_since misp (since_ts start d) = Some [] →
       since start' d' = since start' d)
  ∧ (∀ o d' start',
       (backfill fuel misp now fault d = (o, d') ∨ sync misp start now fault d = (o, d')) →
       o ≠ Done → since start' d' = since start' d).
Proof.
  intros Hrow. split_and!.
  - intros d' start' Hrun. unfold backfill in Hrun.
    destruct (fetch_all fuel misp) as [attrs | |]; [| done | done].
    destruct (fetch_events misp (evt_ids attrs)) as [evs |]; [| done].
    apply pipeline_Done_loaded in Hrun as (rows & _ & ->); [| done].
    by apply loaded_since.
  - intros d' start' Hrun Hfound. unfold sync in Hrun.
    destruct (restSearch_since misp (since_ts start d)) as [[| a attrs] |]; [done | | done].
    destruct (fetch_events misp (evt_ids (a :: attrs))) as [evs |]; [| done].
    apply pipeline_Done_loaded in Hrun as (rows & _ & ->); [| done].
    by apply loaded_since.
  - intros d' start' Hrun Hempty. unfold sync in Hrun. rewrite Hempty in Hrun.
    by injection Hrun as <-.
  - intros o d' start' Hrun Hfail.
    assert (sync_state d' = sync_state d) as Hsame.
    { destruct Hrun as [Hrun | Hrun].
      - destruct (script_shape fuel misp start now d (backfill fuel misp now) (or_introl eq_refl))
          as [(size & attrs & evs & _ & _ & _ & Heq) | (o' & Heq & _)].
        + rewrite Heq in Hrun.
          destruct (pipeline_checkpoint size attrs evs now fault d) as [Hkeep _].
          rewrite Hrun in Hkeep. by apply Hkeep.
        + rewrite Heq in Hrun. by injection Hrun as _ <-.
      - destruct (script_shape fuel misp start now d (sync misp start now) (or_intror eq_refl))
          as [(size & attrs & evs & _ & _ & _ & Heq) | (o' & Heq & _)].
        + rewrite Heq in Hrun.
          destruct (pipeline_checkpoint size attrs evs now fault d) as [Hkeep _].
          rewrite Hrun in Hkeep. by apply Hkeep.
        + rewrite Heq in Hrun. by injection Hrun as _ <-. }
    unfold since. by rewrite Hsame.
Qed.

End Fetches.

(** ** The geo pass, row by row and batch by batch *)

Lemma set_geo_id u r : a_id (set_geo u r) = a_id r.
Proof. unfold set_geo. by case_bool_decide. Qed.

Lemma apply_updates_none us r :
  (∀ u, u ∈ us → g_id u ≠ a_id r) → apply_updates us r = r.
Proof.
  induction us as [| u us IH]; intros Hno; [done |].
  unfold apply_updates in *. simpl.
  rewrite set_geo_other_id.
  - apply IH. intros u' Hu'. apply Hno. by right.
  - intros Heq. apply (Hno u); [left | done].
Qed.

Lemma apply_updates_one us u r :
  NoDup (g_id <$> us) → u ∈ us → g_id u = a_id r →
  apply_updates us r = set_geo u r.
Proof.
  induction us as [| u' us IH]; intros Hnd Hu Hid.
  { by apply elem_of_nil in Hu. }
  rewrite fmap_cons in Hnd. apply NoDup_cons in Hnd as [Hfresh Hnd].
  change (apply_updates (u' :: us) r) with (apply_updates us (set_geo u' r)).
  apply elem_of_cons in Hu as [<- | Hu].
  - apply apply_updates_none. intros u' Hu' Heq. apply Hfresh.
    rewrite set_geo_id, <- Hid in Heq. rewrite <- Heq.
    by apply list_elem_of_fmap_2.
  - rewrite set_geo_other_id; [by apply IH |].
    intros Heq. apply Hfresh. rewrite <- Heq, <- Hid.
    by apply list_elem_of_fmap_2.
Qed.

Lemma exec_all_geo us d :
  exec_all (UPDATE_geo <$> us) d
  = {| events_minimal := events_minimal d;
       attribute_correlations := attribute_correlations d;
       attributes_minimal := apply_updates us <$> attributes_minimal d;
       sync_state := sync_state d |}.
Proof.
  revert d. induction us as [| u us IH]; intros d.
  - apply db_eq; simpl; try done.
    symmetry. apply list_fmap_id.
  - change (exec_all (UPDATE_geo <$> u :: us) d)
      with (exec_all (UPDATE_geo <$> us) (exec (UPDATE_geo u) d)).
    rewrite IH. apply db_eq; simpl; try done.
    by rewrite <- list_fmap_compose.
Qed.

Lemma concat_take_chunks {A} size (l : list A) (j : nat) :
  0 < size →
  concat (take j (chunks size l)) = take (j * Z.to_nat size) l.
Proof.
  intros Hsize. revert j.
  apply (chunks_ind size (λ l cs, ∀ j, concat (take j cs) = take (j * Z.to_nat size) l));
    [done | |].
  - intros j. by rewrite !take_nil.
  - clear l. intros l _ IH [| j]; [done |].
    simpl. rewrite IH. apply take_take_drop.
Qed.

(** The update loop on batches [cs], cut after [k] actions: the committed
    state is that of the first [j] batches, for some [j]. *)
Lemma run_geo_batches_cut (cs : list (list GeoUpdate)) (k : nat) (c : conn) :
  ∃ j, (j ≤ length cs)%nat
       ∧ (committed (run_actions
                       (take k (cs ≫= λ ch, execute_batch UPDATE_geo ch ++ [Commit])) c).2
          = committed c
          ∨ committed (run_actions
                         (take k (cs ≫= λ ch, execute_batch UPDATE_geo ch ++ [Commit])) c).2
            = exec_all (UPDATE_geo <$> concat (take j cs)) (pending c) ∧ (0 < j)%nat).
Proof.
  revert k c. induction cs as [| ch cs IH]; intros k c.
  { exists 0%nat. split; [done |]. left. simpl. by rewrite take_nil. }
  rewrite bind_cons, <- app_assoc.
  destruct (decide (k ≤ length (execute_batch UPDATE_geo ch))%nat) as [Hk | Hk].
  - exists 0%nat. split; [simpl; lia |]. left.
    rewrite take_app_le by done.
    apply run_executes_committed.
    apply Forall_forall. intros a Ha.
    apply elem_of_take in Ha as (i & Hi & _). apply list_elem_of_lookup_2 in Hi.
    unfold execute_batch in Hi. by apply list_elem_of_fmap in Hi as (u & -> & _).
  - assert (k = (length (execute_batch UPDATE_geo ch) + S (k - length (execute_batch UPDATE_geo ch) - 1))%nat)
      as -> by lia.
    rewrite take_app_add. simpl take.
    rewrite cons_middle, app_assoc, run_actions_app.
    rewrite run_actions_commit.
    2:{ unfold execute_batch. by intros (u & ? & _)%list_elem_of_fmap. }
    rewrite statements_execute.
    destruct (IH (k - length (execute_batch UPDATE_geo ch) - 1)%nat
                (connect (exec_all (UPDATE_geo <$> ch) (pending c))))
      as (j & Hj & [Hsame | [Hdone Hpos]]).
    + exists 1%nat. split; [simpl; lia |]. right. split; [| lia].
      rewrite Hsame. simpl. by rewrite app_nil_r.
    + exists (S j). split; [simpl; lia |]. right. split; [| lia].
      rewrite Hdone. simpl. by rewrite fmap_app, exec_all_app.
Qed.

Lemma run_geo_batches_all (cs : list (list GeoUpdate)) (c : conn) :
  pending c = committed c →
  (run_actions (cs ≫= λ ch, execute_batch UPDATE_geo ch ++ [Commit]) c).1 = Done
  ∧ committed (run_actions (cs ≫= λ ch, execute_batch UPDATE_geo ch ++ [Commit]) c).2
    = exec_all (UPDATE_geo <$> concat cs) (committed c).
Proof.
  revert c. induction cs as [| ch cs IH]; intros c Hc; [done |].
  rewrite bind_cons, run_actions_app, run_actions_commit.
  2:{ unfold execute_batch. by intros (u & ? & _)%list_elem_of_fmap. }
  rewrite statements_execute.
  destruct (IH (connect (exec_all (UPDATE_geo <$> ch) (pending c))) eq_refl) as [-> ->].
  split; [done |]. simpl. by rewrite fmap_app, exec_all_app, Hc.
Qed.

Lemma length_omap_le {A B} (f : A → option B) (l : list A) :
  (length (omap f l) ≤ length l)%nat.
Proof.
  induction l as [| x l IH]; [done |].
  change (omap f (x :: l))
    with (match f x with Some y => y :: omap f l | None => omap f l end).
  destruct (f x); simpl; lia.
Qed.

Lemma BATCH_SIZE_pos : 0 < BATCH_SIZE.
Proof. done. Qed.

Lemma geo_run_complete us d :
  run_script None (geo_actions us) d = (Done, exec_all (UPDATE_geo <$> us) d).
Proof.
  rewrite run_script_None. unfold geo_actions.
  destruct (run_geo_batches_all (chunks BATCH_SIZE us) (connect d) eq_refl) as [-> ->].
  by rewrite concat_chunks.
Qed.

Section GeoPass.
Context {geo : GeoServices}.

Lemma collect_omap order dns_cache updates :
  cache_ok dns_cache →
  collect order dns_cache updates
  = updates ++ omap (λ row, (enrich ∅ row).1) order.
Proof.
  revert dns_cache updates.
  induction order as [| row order IH]; intros dns_cache updates Hok; simpl.
  { by rewrite app_nil_r. }
  destruct (enrich_cache dns_cache row Hok) as [Hres Hok'].
  rewrite IH by done. rewrite Hres.
  destruct (enrich ∅ row).1 as [u |]; [| done].
  by rewrite <- app_assoc.
Qed.

(** X12: the DNS cache and the completion order.  As long as the resolver
    answers a name the same way throughout the pass, the cache changes no
    result: the collected updates are the results of the rows' own lookups,
    in completion order, one at most per row, each carrying the id of its
    row; two completion orders give the same updates up to their order. *)
Theorem collect_is_each_rows_lookup (order : list sel_row) :
  collect order ∅ [] = omap (λ row, (enrich ∅ row).1) order
  ∧ (length (collect order ∅ []) ≤ length order)%nat
  ∧ (∀ u, u ∈ collect order ∅ [] ↔ ∃ row, row ∈ order ∧ (enrich ∅ row).1 = Some u)
  ∧ (∀ u row, (enrich ∅ row).1 = Some u → g_id u = row.1.1)
  ∧ (∀ order', order' ≡ₚ order → collect order' ∅ [] ≡ₚ collect order ∅ []).
Proof.
  assert (∀ o, collect o ∅ [] = omap (λ row, (enrich ∅ row).1) o) as Hcollect.
  { intros o. by rewrite collect_omap by apply cache_ok_empty. }
  split_and!.
  - apply Hcollect.
  - rewrite Hcollect. apply length_omap_le.
  - intros u. rewrite Hcollect. apply list_elem_of_omap.
  - intros u row. apply enrich_id.
  - intros order' Hperm. rewrite !Hcollect. by rewrite Hperm.
Qed.

Lemma select_rows_elem_2 r d :
  r ∈ attributes_minimal d → selected r = true →
  (a_id r, a_value r, a_type r) ∈ select_rows d.
Proof.
  intros Hr Hsel. unfold select_rows.
  apply (list_elem_of_fmap_2 (λ r, (a_id r, a_value r, a_type r))).
  apply list_elem_of_In, filter_In. split; [by apply list_elem_of_In | done].
Qed.

Lemma NoDup_selected_ids (l : list AttrRow) :
  NoDup (a_id <$> l) → NoDup (a_id <$> List.filter selected l).
Proof.
  induction l as [| r l IH]; [done |].
  rewrite fmap_cons. intros [Hfresh Hnd]%NoDup_cons. simpl.
  destruct (selected r); [| by apply IH].
  rewrite fmap_cons. apply NoDup_cons. split; [| by apply IH].
  intros (r' & Hid & Hr')%list_elem_of_fmap. apply Hfresh.
  rewrite Hid. apply list_elem_of_fmap_2.
  apply list_elem_of_In, filter_In in Hr' as [Hr' _]. by apply list_elem_of_In.
Qed.

Lemma NoDup_results (rows : list sel_row) :
  NoDup ((λ row, row.1.1) <$> rows) →
  NoDup (g_id <$> omap (λ row, (enrich ∅ row).1) rows).
Proof.
  induction rows as [| row rows IH]; [done |].
  rewrite fmap_cons. intros [Hfresh Hnd]%NoDup_cons. simpl.
  destruct (enrich ∅ row).1 as [u |] eqn:Hu; [| by apply IH].
  rewrite fmap_cons. apply NoDup_cons. split; [| by apply IH].
  intros (u' & Hid & Hu')%list_elem_of_fmap. apply Hfresh.
  apply list_elem_of_omap in Hu' as (row' & Hrow' & Hu').
  apply enrich_id in Hu, Hu'. rewrite <- Hu, Hid, Hu'.
  by apply (list_elem_of_fmap_2 (λ row, row.1.1)).
Qed.

Lemma NoDup_fmap_inj {A B} (f : A → B) (l : list A) x y :
  NoDup (f <$> l) → x ∈ l → y ∈ l → f x = f y → x = y.
Proof.
  induction l as [| z l IH]; intros Hnd Hx Hy Heq.
  { by apply elem_of_nil in Hx. }
  rewrite fmap_cons in Hnd. apply NoDup_cons in Hnd as [Hfresh Hnd].
  apply elem_of_cons in Hx as [-> | Hx]; apply elem_of_cons in Hy as [-> | Hy].
  - done.
  - exfalso. apply Hfresh. rewrite Heq. by apply list_elem_of_fmap_2.
  - exfalso. apply Hfresh. rewrite <- Heq. by apply list_elem_of_fmap_2.
  - by apply IH.
Qed.

Lemma enriched_id r : a_id (enriched r) = a_id r.
Proof.
  unfold enriched. destruct (selected r); [| done].
  destruct (enrich ∅ (a_id r, a_value r, a_type r)).1; [apply set_geo_id | done].
Qed.

Lemma set_geo_own u r :
  g_id u = a_id r →
  set_geo u r
  = {| a_id := a_id r; a_event_id := a_event_id r; a_category := a_category r;
       a_type := a_type r; a_value := a_value r; a_to_ids := a_to_ids r;
       a_uuid := a_uuid r; a_created_ts := a_created_ts r;
       a_comment := a_comment r; a_first_seen := a_first_seen r;
       a_last_seen := a_last_seen r;
       a_country_name := g_country_name u; a_country_code := g_country_code u;
       a_region_name := g_region_name u; a_city := g_city u;
       a_related_event_info := a_related_event_info r;
       a_event_info := a_event_info r;
       a_event_galaxy_names := a_event_galaxy_names r |}.
Proof. intros Hid. unfold set_geo. by rewrite bool_decide_eq_true_2. Qed.

(** Enriching an enriched row changes nothing. *)
Lemma enriched_idemp r : enriched (enriched r) = enriched r.
Proof.
  destruct (selected r) eqn:Hsel.
  2:{ assert (enriched r = r) as Hr by (unfold enriched; by rewrite Hsel).
      by rewrite !Hr. }
  destruct (enrich ∅ (a_id r, a_value r, a_type r)).1 as [u |] eqn:Hu.
  2:{ assert (enriched r = r) as Hr by (unfold enriched; by rewrite Hsel, Hu).
      by rewrite !Hr. }
  assert (enriched r = set_geo u r) as Hr by (unfold enriched; by rewrite Hsel, Hu).
  rewrite !Hr.
  pose proof (enrich_id _ _ _ Hu) as Hid. simpl in Hid.
  rewrite (set_geo_own u r Hid).
  match goal with |- enriched ?x = _ => set (r' := x) end.
  assert (selected r' = bool_decide (g_country_name u = None)) as Hsel'.
  { unfold selected in *. apply andb_prop in Hsel as [_ Htype].
    subst r'. cbn [a_country_name a_type]. rewrite Htype. apply andb_true_r. }
  assert ((enrich ∅ (a_id r', a_value r', a_type r')).1 = Some u) as Hu' by exact Hu.
  unfold enriched. rewrite Hsel'. case_bool_decide as Hname; [| done].
  rewrite Hu'. unfold set_geo.
  rewrite bool_decide_eq_true_2 by (symmetry; exact Hid).
  done.
Qed.

(** The updates collected from the selection, applied to the table. *)
Lemma apply_updates_enriched us d :
  us ≡ₚ omap (λ row, (enrich ∅ row).1) (select_rows d) →
  NoDup (a_id <$> attributes_minimal d) →
  apply_updates us <$> attributes_minimal d = enriched <$> attributes_minimal d.
Proof.
  intros Hperm Hnd.
  assert (NoDup (g_id <$> us)) as Hus.
  { rewrite Hperm. apply NoDup_results. unfold select_rows.
    rewrite <- list_fmap_compose. by apply NoDup_selected_ids. }
  assert (∀ u, u ∈ us ↔ ∃ row, row ∈ select_rows d ∧ (enrich ∅ row).1 = Some u) as Hin.
  { intros u. rewrite Hperm. apply list_elem_of_omap. }
  apply Forall_fmap_ext_1, Forall_forall. intros r Hr.
  assert (∀ u, u ∈ us → g_id u = a_id r →
               selected r = true ∧ (enrich ∅ (a_id r, a_value r, a_type r)).1 = Some u)
    as Hmine.
  { intros u Hu Hid. apply Hin in Hu as (row & Hrow & Hu).
    apply select_rows_elem in Hrow as (r' & Hr' & Hsel' & ->).
    pose proof (enrich_id _ _ _ Hu) as Hid'. simpl in Hid'.
    assert (r' = r) as ->; [| done].
    apply (NoDup_fmap_inj a_id (attributes_minimal d)); [done | done | done | congruence]. }
  unfold enriched.
  destruct (selected r) eqn:Hsel.
  - destruct (enrich ∅ (a_id r, a_value r, a_type r)).1 as [u |] eqn:Hu.
    + apply apply_updates_one; [done | | by apply enrich_id in Hu].
      apply Hin. eexists. split; [by apply select_rows_elem_2 | done].
    + apply apply_updates_none. intros u' Hu' Hid.
      by destruct (Hmine u' Hu' Hid) as [_ ?].
  - apply apply_updates_none. intros u' Hu' Hid.
    by destruct (Hmine u' Hu' Hid) as [? _].
Qed.

Lemma geo_backfill_complete (schedule : list sel_row → list sel_row) (d : db) :
  (∀ l, schedule l ≡ₚ l) →
  NoDup (a_id <$> attributes_minimal d) →
  geo_backfill schedule None d
  = (Done, {| events_minimal := events_minimal d;
              attribute_correlations := attribute_correlations d;
              attributes_minimal := enriched <$> attributes_minimal d;
              sync_state := sync_state d |}).
Proof.
  intros Hsched Hnd. unfold geo_backfill.
  rewrite geo_run_complete, exec_all_geo. do 2 f_equal.
  apply apply_updates_enriched; [| done].
  rewrite collect_omap by apply cache_ok_empty. simpl. by rewrite Hsched.
Qed.

(** X13: what a complete geo pass does.  When the ids of [attributes_minimal]
    are distinct, a pass that runs to its end leaves every row as its own
    lookup makes it, in whatever order the lookups complete: a selected row
    whose address (or the address its domain resolves to) is in the GeoLite2
    database takes the four columns of the record found, every other row
    stays as it was, and so do the other tables. *)
Theorem geo_pass_enriches_each_row (schedule : list sel_row → list sel_row) (d : db) :
  (∀ l, schedule l ≡ₚ l) →
  NoDup (a_id <$> attributes_minimal d) →
  geo_backfill schedule None d
  = (Done, {| events_minimal := events_minimal d;
              attribute_correlations := attribute_correlations d;
              attributes_minimal := enriched <$> attributes_minimal d;
              sync_state := sync_state d |})
  ∧ (∀ r, selected r = false → enriched r = r)
  ∧ (∀ r, selected r = true →
          (enrich ∅ (a_id r, a_value r, a_type r)).1 = None → enriched r = r)
  ∧ (∀ r ip city,
       selected r = true →
       (a_type r = Some "domain"%string ∧ (∃ v, a_value r = Some v ∧ gethostbyname v = Some ip)
        ∨ a_type r ≠ Some "domain"%string ∧ a_value r = Some ip) →
       reader_city ip = Some city →
       other_columns (enriched r) = other_columns r
       ∧ a_country_name (enriched r) = city_country_name city
       ∧ a_country_code (enriched r) = city_country_iso_code city
       ∧ a_region_name (enriched r) = city_subdivision_name city
       ∧ a_city (enriched r) = city_city_name city).
Proof.
  intros Hsched Hnd. split_and!.
  - by apply geo_backfill_complete.
  - intros r Hsel. unfold enriched. by rewrite Hsel.
  - intros r Hsel Hnone. unfold enriched. by rewrite Hsel, Hnone.
  - intros r ip city Hsel Hip Hcity.
    assert ((enrich ∅ (a_id r, a_value r, a_type r)).1
            = Some {| g_id := a_id r;
                      g_country_name := city_country_name city;
                      g_country_code := city_country_iso_code city;
                      g_region_name := city_subdivision_name city;
                      g_city := city_city_name city |}) as Hu.
    { unfold enrich, geo_result.
      destruct Hip as [[Htype (v & Hval & Hres)] | [Htype Hval]].
      - rewrite bool_decide_eq_true_2 by done.
        rewrite Hval, lookup_empty, Hres. simpl. by rewrite Hcity.
      - rewrite bool_decide_eq_false_2 by done.
        rewrite Hval. simpl. by rewrite Hcity. }
    unfold enriched. rewrite Hsel, Hu.
    split; [apply set_geo_other_columns |].
    by rewrite set_geo_own.
Qed.

(** X14: a second pass finds nothing to change.  With the resolver and the
    GeoLite2 database answering as before, and the ids of
    [attributes_minimal] distinct, a complete pass on the warehouse a
    complete pass has left ends with the warehouse as it found it: the rows
    it selects again (those whose record has no country name) get the
    columns they already have. *)
Theorem geo_pass_twice (schedule schedule' : list sel_row → list sel_row) (d : db) :
  (∀ l, schedule l ≡ₚ l) →
  (∀ l, schedule' l ≡ₚ l) →
  NoDup (a_id <$> attributes_minimal d) →
  geo_backfill schedule' None (geo_backfill schedule None d).2
  = (Done, (geo_backfill schedule None d).2).
Proof.
  intros Hsched Hsched' Hnd.
  rewrite (geo_backfill_complete schedule d Hsched Hnd). simpl.
  rewrite geo_backfill_complete; [| done |].
  - simpl. do 2 f_equal. rewrite <- list_fmap_compose.
    apply Forall_fmap_ext_1, Forall_forall. intros r _. apply enriched_idemp.
  - simpl. rewrite <- list_fmap_compose.
    erewrite (Forall_fmap_ext_1 (a_id ∘ enriched)); [exact Hnd |].
    apply Forall_forall. intros r _. apply enriched_id.
Qed.

(** X15: the geo pass commits whole batches.  Wherever the pass may fail, the
    warehouse holds the effect of the first [j] batches of [BATCH_SIZE]
    updates, for some [j], and nothing of the batches after them; a pass
    that ends has applied every update, and without a failure the pass
    ends. *)
Theorem geo_pass_commits_whole_batches (schedule : list sel_row → list sel_row)
    (fault : option nat) (d : db) :
  (∃ j : nat,
     (j ≤ length (chunks BATCH_SIZE (collect (schedule (select_rows d)) ∅ [])))%nat
     ∧ (geo_backfill schedule fault d).2
       = exec_all (UPDATE_geo <$> take (j * 1000) (collect (schedule (select_rows d)) ∅ [])) d
     ∧ attributes_minimal (geo_backfill schedule fault d).2
       = apply_updates (take (j * 1000) (collect (schedule (select_rows d)) ∅ []))
           <$> attributes_minimal d)
  ∧ ((geo_backfill schedule fault d).1 = Done →
       (geo_backfill schedule fault d).2
       = exec_all (UPDATE_geo <$> collect (schedule (select_rows d)) ∅ []) d)
  ∧ (geo_backfill schedule None d).1 = Done.
Proof.
  unfold geo_backfill.
  set (us := collect (schedule (select_rows d)) ∅ []).
  split_and!.
  - assert (∃ k, (run_script fault (geo_actions us) d).2
                 = committed (run_actions (take k (geo_actions us)) (connect d)).2)
      as [k Hk].
    { destruct (interrupt_prefix fault (geo_actions us) (connect d)) as [k Hk].
      exists k. unfold run_script. simpl. by rewrite Hk. }
    destruct (run_geo_batches_cut (chunks BATCH_SIZE us) k (connect d))
      as (j & Hj & Hcut).
    assert (∃ j', (j' ≤ length (chunks BATCH_SIZE us))%nat
                  ∧ (run_script fault (geo_actions us) d).2
                    = exec_all (UPDATE_geo <$> take (j' * 1000) us) d)
      as (j' & Hj' & Hrun).
    { destruct Hcut as [Hsame | [Hdone _]].
      - exists 0%nat. split; [lia |]. rewrite Hk. unfold geo_actions. by rewrite Hsame.
      - exists j. split; [done |]. rewrite Hk. unfold geo_actions. rewrite Hdone.
        by rewrite (concat_take_chunks BATCH_SIZE us j BATCH_SIZE_pos). }
    exists j'. split_and!; [done | done |].
    by rewrite Hrun, exec_all_geo.
  - intros Hdone. unfold run_script in *. simpl in *.
    apply interrupt_Done in Hdone. rewrite Hdone.
    pose proof (geo_run_complete us d) as Hall. rewrite run_script_None in Hall.
    by injection Hall as _ ->.
  - by rewrite geo_run_complete.
Qed.

End GeoPass.

(** * The theorems on the worked example *)


(** With the epoch stored the window starts at the epoch; without a row it
    starts four hours before the clock reading. *)
Lemma delta_window_lower_bound_witness :
  since 1700000000000000 ex_db = 0
  ∧ since 1700000000000000 ex_db_no_row = 1699985600000000.
Proof.
  destruct (delta_window_lower_bound (rt := ex_runtime) 1700000000000000 ex_db)
    as (Hrow & _).
  destruct (delta_window_lower_bound (rt := ex_runtime) 1700000000000000 ex_db_no_row)
    as (_ & Hnone & _).
  split.
  - apply Hrow. reflexivity.
  - rewrite Hnone; [reflexivity | left; reflexivity].
Defined.

(** A second backfill of the example leaves events and edges as they are. *)
Lemma backfill_twice_same_events_correlations_witness :
  events_minimal (backfill (rt := ex_runtime) 5 ex_misp (ex_now + 1) None ex_db_after_backfill).2
  = events_minimal ex_db_after_backfill
  ∧ attribute_correlations
      (backfill (rt := ex_runtime) 5 ex_misp (ex_now + 1) None ex_db_after_backfill).2
    = attribute_correlations ex_db_after_backfill.
Proof.
  apply (backfill_twice_same_events_correlations (rt := ex_runtime)
           5 ex_misp ex_now (ex_now + 1) None None ex_db ex_db_after_backfill).
  vm_compute. reflexivity.
Defined.

(** A second backfill of the example leaves the rows of attributes 1, 2 and 3
    twice. *)
Lemma attribute_load_duplicates_witness :
  ∃ rows,
    a_id <$> rows = [1; 2; 3]
    ∧ attributes_minimal
        (backfill (rt := ex_runtime) 5 ex_misp (ex_now + 1) None ex_db_after_backfill).2
      = rows ++ rows.
Proof.
  destruct (attribute_load_duplicates (rt := ex_runtime) 5 ex_misp ex_now (ex_now + 1)
              None None ex_db ex_db_after_backfill
              (backfill (rt := ex_runtime) 5 ex_misp (ex_now + 1) None ex_db_after_backfill).2)
    as (_ & attrs & rows & Hfetch & Hids & _ & Htwice & _).
  - vm_compute. reflexivity.
  - vm_compute. reflexivity.
  - exists rows. split; [| exact Htwice].
    rewrite Hids. vm_compute in Hfetch. injection Hfetch as <-. reflexivity.
Defined.

(** Three attributes in chunks of two: a load of two rows, then one of one. *)
Lemma copy_loop_chunking_witness :
  ∃ loads : list (list AttrRow),
    load_attributes (rt := ex_runtime) 2 (event_map [ex_event 10 "x"; ex_event 11 "y"])
      (id_to_value [ex_a1; ex_a2; ex_a3]) [ex_a1; ex_a2; ex_a3]
    = (rs ← loads; [Execute (COPY_attributes rs); Commit])
    ∧ (length <$> loads) = [2; 1]%nat.
Proof.
  destruct (copy_loop_chunking (rt := ex_runtime) 2 [ex_a1; ex_a2; ex_a3]
              [ex_event 10 "x"; ex_event 11 "y"] ex_now
              (default [] (write_csv (rt := ex_runtime)
                             (event_map [ex_event 10 "x"; ex_event 11 "y"])
                             (id_to_value [ex_a1; ex_a2; ex_a3]) [ex_a1; ex_a2; ex_a3]))
              ex_db)
    as (loads & Hloop & _ & Hcount & Hsizes & _).
  - lia.
  - vm_compute. reflexivity.
  - exists loads. split; [exact Hloop |].
    change (Z.of_nat (length loads) = 2) in Hcount.
    destruct loads as [| r1 [| r2 [| r3 loads]]]; simpl in Hcount; try lia.
    pose proof (Hsizes 0%nat r1 eq_refl) as H1.
    pose proof (Hsizes 1%nat r2 eq_refl) as H2.
    rewrite bool_decide_eq_true_2 in H1 by (simpl; lia).
    rewrite bool_decide_eq_false_2 in H2 by (simpl; lia).
    change (Z.of_nat (length [ex_a1; ex_a2; ex_a3]) `mod` 2) with 1 in H2.
    simpl. f_equal; [lia | f_equal; lia].
Defined.

(** The example platform: pages 1 and 2, then the empty page 3. *)
Lemma fetch_stops_at_first_empty_page_witness :
  ∃ (m : Z) (blocks : list (list Attribute)),
    1 ≤ m ≤ 3
    ∧ Z.of_nat (length blocks) = m - 1
    ∧ restSearch_page ex_misp m = Some []
    ∧ (∀ (i : nat) b, blocks !! i = Some b →
         restSearch_page ex_misp (1 + Z.of_nat i) = Some b ∧ b ≠ [])
    ∧ ∀ fuel, (Z.to_nat m ≤ fuel)%nat →
        fetch_pages fuel ex_misp 1 [] [] = (Fetched (concat blocks), reverse (seqZ 1 m))
        ∧ fetch_all fuel ex_misp = Fetched (concat blocks).
Proof.
  apply (fetch_stops_at_first_empty_page ex_misp 3).
  - lia.
  - reflexivity.
  - intros i Hi. assert (i = 1 ∨ i = 2) as [-> | ->] by lia; eexists; reflexivity.
Defined.

(** Attribute 1 relates to attribute 2: the one edge (1, 2, "similar"), and no
    edge from 2 to 1. *)
Lemma corr_params_one_edge_per_entry_witness :
  corr_params (rt := ex_runtime) [ex_a1; ex_a2]
  = [ {| c_attr_id := 1; c_related_attr_id := 2; c_related_event_id := 10;
         c_relationship_type := Some "similar"; c_first_seen := None;
         c_last_seen := None; c_comment := Some EmptyString |} ].
Proof.
  destruct (corr_params_one_edge_per_entry (rt := ex_runtime) [ex_a1; ex_a2]) as (-> & _).
  reflexivity.
Defined.

(** The row of the domain that does not resolve gets no update of its own
    and does not fail the pass, even where another row shares its id; with
    one row per id it is left as it was. *)
Lemma unresolved_domain_row_skipped_witness :
  (enrich (geo := ex_geo) ∅ (5, Some "old.example", Some "domain")).1 = None
  ∧ (geo_backfill (geo := ex_geo) (λ l, l) None ex_geo_db_edited).1 = Done
  ∧ (geo_backfill (geo := ex_geo) (λ l, l) None ex_geo_db).1 = Done
  ∧ attributes_minimal (geo_backfill (geo := ex_geo) (λ l, l) None ex_geo_db).2 !! 0%nat
    = Some (ex_row 5 "domain" "old.example").
Proof.
  destruct (unresolved_domain_row_skipped (geo := ex_geo) (λ l, l) None ex_geo_db_edited 0
              (ex_row 5 "domain" "old.example"))
    as (Hnone & Hdone & _).
  { reflexivity. }
  { reflexivity. }
  { reflexivity. }
  { reflexivity. }
  { intros v [= <-]. reflexivity. }
  destruct (unresolved_domain_row_skipped (geo := ex_geo) (λ l, l) None ex_geo_db 0
              (ex_row 5 "domain" "old.example"))
    as (_ & Hdone' & Hrest).
  { reflexivity. }
  { reflexivity. }
  { reflexivity. }
  { reflexivity. }
  { intros v [= <-]. reflexivity. }
  destruct Hrest as (_ & Hkept & _).
  { intros r' Hin Hsel Hid.
    apply elem_of_cons in Hin as [-> | Hin]; [reflexivity |].
    apply list_elem_of_singleton in Hin as ->. discriminate Hid. }
  split_and!; [| exact Hdone | exact Hdone' | exact Hkept].
  specialize (Hnone ∅ (cache_ok_empty (geo := ex_geo))).
  exact (f_equal fst Hnone).
Defined.

(** C8 as stated fails.  In [ex_geo_db_edited] the first row is a selected
    domain row whose name does not resolve, and [enrich] returns [None] for
    it; the second row has the same id and is enriched, and the UPDATE for
    that id sets the geography of both rows: after the pass the first row is
    no longer null in its geography columns and no longer selected. *)
Lemma unresolved_domain_row_updated_through_shared_id :
  attributes_minimal ex_geo_db_edited !! 0%nat = Some (ex_row 5 "domain" "old.example")
  ∧ selected (ex_row 5 "domain" "old.example") = true
  ∧ gethostbyname (GeoServices := ex_geo) "old.example" = None
  ∧ (enrich (geo := ex_geo) ∅ (5, Some "old.example", Some "domain")).1 = None
  ∧ (geo_backfill (geo := ex_geo) (λ l, l) None ex_geo_db_edited).1 = Done
  ∧ ∃ r',
      attributes_minimal (geo_backfill (geo := ex_geo) (λ l, l) None ex_geo_db_edited).2
        !! 0%nat = Some r'
      ∧ a_country_name r' = Some "Australia"
      ∧ a_country_code r' = Some "AU"
      ∧ a_region_name r' = Some "New South Wales"
      ∧ a_city r' = Some "Sydney"
      ∧ selected r' = false.
Proof.
  split_and!; try reflexivity.
  eexists. split_and!; reflexivity.
Qed.

(** A backfill and a sync on a warehouse without checkpoint row: still no
    row, and the default window. *)
Lemma checkpoint_row_never_created_witness :
  sync_state
    (after_runs (rt := ex_runtime)
       [Backfill_run 5 ex_misp ex_now None; Sync_run ex_misp ex_now (ex_now + 1) None]
       ex_db_no_row) !! 1 = None
  ∧ since ex_now
      (after_runs (rt := ex_runtime)
         [Backfill_run 5 ex_misp ex_now None; Sync_run ex_misp ex_now (ex_now + 1) None]
         ex_db_no_row)
    = ex_now - 4 * 3600 * 1000000.
Proof.
  destruct (checkpoint_row_never_created (rt := ex_runtime) ex_db_no_row) as (_ & _ & Hruns).
  - reflexivity.
  - destruct (Hruns [Backfill_run 5 ex_misp ex_now None;
                     Sync_run ex_misp ex_now (ex_now + 1) None] ex_now)
      as (_ & Hrow & Hsince).
    split; [exact Hrow | exact Hsince].
Defined.

(** The frame on the warehouse where two rows share the id 5. *)
Lemma geo_update_frame_witness :
  Forall2 (λ r r', other_columns r' = other_columns r
                   ∧ (a_id r ∉ g_id <$> collect (geo := ex_geo) (select_rows ex_geo_db_edited) ∅ []
                      → r' = r))
    (attributes_minimal ex_geo_db_edited)
    (attributes_minimal (geo_backfill (geo := ex_geo) (λ l, l) None ex_geo_db_edited).2).
Proof.
  destruct (geo_update_frame (geo := ex_geo) (λ l, l) None ex_geo_db_edited)
    as (_ & _ & _ & Hrows & _).
  exact Hrows.
Defined.

(** ** The further properties on the worked example *)

(** The backfill of the example stores event 10 as fetched. *)
Lemma upsert_keeps_existing_else_first_witness :
  events_minimal ex_db_after_backfill !! 10
  = Some (evt_param (rt := ex_runtime) (ex_event 10 "x")).
Proof.
  destruct (upsert_keeps_existing_else_first (rt := ex_runtime) 5 ex_misp ex_now None
              ex_db ex_db_after_backfill)
    as (attrs & evs & Hfetch & Hevs & Hlook & _).
  - vm_compute. reflexivity.
  - rewrite (Hlook 10).
    vm_compute in Hfetch. injection Hfetch as <-.
    vm_compute in Hevs. injection Hevs as <-.
    reflexivity.
Defined.

(** The three rows staged for the example have no geography and are all
    selected by the geo script. *)
Lemma staged_rows_await_enrichment_witness :
  Forall2 (λ a r,
             a_id r = attr_id a
             ∧ a_country_name r = None ∧ a_country_code r = None
             ∧ a_region_name r = None ∧ a_city r = None
             ∧ (selected r = true ↔ ∃ t, attr_type a = Some t ∧ t ∈ geo_types))
    [ex_a1; ex_a2; ex_a3]
    (default [] (write_csv (rt := ex_runtime)
                   (event_map [ex_event 10 "x"; ex_event 11 "y"])
                   (id_to_value [ex_a1; ex_a2; ex_a3]) [ex_a1; ex_a2; ex_a3])).
Proof.
  apply (staged_rows_await_enrichment (rt := ex_runtime)
           (event_map [ex_event 10 "x"; ex_event 11 "y"])
           (id_to_value [ex_a1; ex_a2; ex_a3])).
  vm_compute. reflexivity.
Defined.

(** The two-line value is staged with a space in place of the line feed, and
    the description of event 10 with its first 50 code points, which are 51
    bytes. *)
Lemma staged_text_has_no_newline_witness :
  ∃ r, csv_row (rt := ex_runtime) (event_map [ex_event 10 ex_long_info])
         (id_to_value [ex_a2; ex_a4]) ex_a4 = Some r
       ∧ a_value r = Some "a b"
       ∧ has_newline "a b" = false
       ∧ a_related_event_info r
         = Some ("10:" +:+ "é" +:+ "aaaaaaaaaaaaaaaaaaaaaaaaaaaaaaaaaaaaaaaaaaaaaaaaa"
                 +:+ "|1.2.3.4")
       ∧ ∃ parts, a_related_event_info r = copy_cell (String.concat ", " parts)
                  ∧ length parts = 1%nat.
Proof.
  assert (∃ r, csv_row (rt := ex_runtime) (event_map [ex_event 10 ex_long_info])
                 (id_to_value [ex_a2; ex_a4]) ex_a4 = Some r) as [r Hr].
  { vm_compute. eexists. reflexivity. }
  assert (a_value r = Some "a b") as Hval.
  { vm_compute in Hr. injection Hr as <-. reflexivity. }
  assert (a_related_event_info r
          = Some ("10:" +:+ "é" +:+ "aaaaaaaaaaaaaaaaaaaaaaaaaaaaaaaaaaaaaaaaaaaaaaaaa"
                  +:+ "|1.2.3.4")) as Hrel.
  { vm_compute in Hr. injection Hr as <-. reflexivity. }
  exists r. split; [exact Hr |]. split; [exact Hval |].
  destruct (staged_text_has_no_newline (rt := ex_runtime) _ _ ex_a4 r Hr)
    as (Hclean & _ & parts & Hparts & Hall).
  split; [apply Hclean; left; exact Hval |]. split; [exact Hrel |].
  exists parts. split; [exact Hparts |].
  apply Forall2_length in Hall. rewrite <- Hall. reflexivity.
Defined.

(** The backfill from the platform whose third page fails loads nothing. *)
Lemma page_error_aborts_backfill_witness :
  backfill (rt := ex_runtime) 5 ex_misp_failing ex_now None ex_db = (Raised, ex_db).
Proof.
  destruct (page_error_aborts_backfill (rt := ex_runtime) ex_misp_failing
              [[ex_a1; ex_a2]; [ex_a3]] 5) as [_ Hrun].
  - intros [| [| i]] b Hi; simpl in Hi; [| | discriminate].
    + injection Hi as <-. split; [reflexivity | discriminate].
    + injection Hi as <-. split; [reflexivity | discriminate].
  - reflexivity.
  - simpl. lia.
  - apply Hrun.
Defined.

(** A thousand requests to the platform that never runs out are not enough. *)
Lemma pagination_needs_an_empty_page_witness :
  fetch_all 1000 ex_misp_endless = FetchOutOfFuel.
Proof.
  destruct (pagination_needs_an_empty_page (rt := ex_runtime) ex_misp_endless) with 1000%nat
    as [Hfetch _].
  - intros page _. exists [ex_a2]. split; [reflexivity | discriminate].
  - exact Hfetch.
Defined.

(** The sync that follows the backfill of the example starts its window at
    the clock reading of the backfill. *)
Lemma checkpoint_round_trip_witness :
  since 1700009999000000 ex_db_after_backfill = ex_now.
Proof.
  destruct (checkpoint_round_trip (rt := ex_runtime) 5 ex_misp 0 ex_now None ex_db)
    as (Hbackfill & _).
  - exists (Some 0). reflexivity.
  - apply Hbackfill. vm_compute. reflexivity.
Defined.

(** The pass over the two rows of the example gives row 6 the record of
    1.2.3.4 and leaves row 5, in either completion order. *)
Lemma geo_pass_enriches_each_row_witness :
  attributes_minimal (geo_backfill (geo := ex_geo) reverse None ex_geo_db).2
  = [ex_row 5 "domain" "old.example";
     set_geo {| g_id := 6; g_country_name := Some "Australia";
                g_country_code := Some "AU";
                g_region_name := Some "New South Wales";
                g_city := Some "Sydney" |}
       (ex_row 6 "domain" "new.example")].
Proof.
  destruct (geo_pass_enriches_each_row (geo := ex_geo) reverse ex_geo_db) as (-> & _).
  - apply reverse_Permutation.
  - apply (bool_decide_unpack _). reflexivity.
  - reflexivity.
Defined.

(** A second pass over the example, in the other order, changes nothing. *)
Lemma geo_pass_twice_witness :
  geo_backfill (geo := ex_geo) reverse None
    (geo_backfill (geo := ex_geo) (λ l, l) None ex_geo_db).2
  = (Done, (geo_backfill (geo := ex_geo) (λ l, l) None ex_geo_db).2).
Proof.
  apply (geo_pass_twice (geo := ex_geo)).
  - reflexivity.
  - apply reverse_Permutation.
  - apply (bool_decide_unpack _). reflexivity.
Defined.
